(** * ToyTfIdfGuesser: a shallow embedding of [tfidf/toytfidf_guesser.py]

    The Python class keeps its whole state in instance attributes and
    signals misuse with [assert] and with the exceptions of the
    libraries it calls.  The embedding follows that shape:

    - Python [int] is [Z]; [str] is [string]; a Python [float] is read
      as the real number ([R]) it stands for and the arithmetic on it
      is exact: what is proved of a sum, a product or a quotient is
      proved of the formula, and the rounding of float64 is not
      modelled.  The similarity search is also given with the scores
      of the library as a parameter ([find_best_match_with]), the form
      that makes no assumption on that arithmetic;
    - [dict] and [FreqDist] are insertion-ordered association lists,
      because [sorted] in [finalize_vocab] and the scan of [vocab_key]
      depend on the insertion order;
    - an instance is the record [engine]; a method that assigns
      attributes is a function [engine -> result A * engine] (the state
      reached when an exception is raised is kept, as it is in Python),
      a method that only reads is a function [engine -> result A];
    - the tokenizer and the normalizer are attributes holding functions,
      as in [__init__];
    - the library calls are modelled by what their documentation
      promises: [FreqDist] of nltk is a counter with [N] and [freq],
      [cosine_similarity] of sklearn validates its arguments and gives 0
      to a vector of norm zero, [argmax] of numpy returns the first
      index of the maximum, [pickle] reads back what it wrote;
    - the [print] and [logging] calls are left out, except that the
      arguments of the log call of [finalize_docs] are evaluated. *)

From Stdlib Require Import ZArith List String Ascii Bool Lia.
From Stdlib Require Import Permutation Sorted.
From Stdlib Require Import Reals Lra.
Import ListNotations.

Open Scope Z_scope.

(** ** Exceptions and results *)

Inductive exn : Type :=
| AssertionError
| AttributeError
| KeyError
| ValueError
| ZeroDivisionError
| IndexError.

Inductive result (A : Type) : Type :=
| Ok (a : A)
| Raise (x : exn).

Arguments Ok {A} a.
Arguments Raise {A} x.

Definition rbind {A B : Type} (m : result A) (k : A -> result B) : result B :=
  match m with
  | Ok a => k a
  | Raise x => Raise x
  end.

Declare Scope py_scope.
Delimit Scope py_scope with py.
Notation "x <- m ;; k" := (rbind m (fun x => k))
  (at level 61, m at next level, right associativity) : py_scope.
Notation "'assert!' b ;; k" := (if b then k else Raise AssertionError)
  (at level 61, b at next level, right associativity) : py_scope.
Open Scope py_scope.

(** ** Insertion-ordered dictionaries keyed by strings

    [d[k] = v] keeps the position of a key that is already present and
    appends a new key at the end, which is the order [dict.items()],
    [dict.keys()] and iteration follow. *)

Module OD.
Section Dict.
Context {V : Type}.

Definition t := list (string * V).

Fixpoint get (d : t) (k : string) : option V :=
  match d with
  | [] => None
  | (k', v) :: d' => if String.eqb k' k then Some v else get d' k
  end.

Definition mem (d : t) (k : string) : bool :=
  match get d k with Some _ => true | None => false end.

Fixpoint set (d : t) (k : string) (v : V) : t :=
  match d with
  | [] => [(k, v)]
  | (k', v') :: d' =>
      if String.eqb k' k then (k', v) :: d' else (k', v') :: set d' k v
  end.

Definition keys (d : t) : list string := map fst d.
Definition values (d : t) : list V := map snd d.
Definition len (d : t) : Z := Z.of_nat (List.length d).
End Dict.
Arguments t : clear implicits.
End OD.

(** [FreqDist] is a [Counter]: a missing key reads as 0 and reading does
    not insert it. *)
Definition fd_get (d : OD.t Z) (k : string) : Z :=
  match OD.get d k with Some c => c | None => 0 end.

(** [d[k] += n] on a [FreqDist]. *)
Definition fd_add (d : OD.t Z) (k : string) (n : Z) : OD.t Z :=
  OD.set d k (fd_get d k + n).

(** [FreqDist(iterable)]. *)
Definition FreqDist (l : list string) : OD.t Z :=
  fold_left (fun d w => fd_add d w 1) l [].

(** [FreqDist.N()], also [sum(d.values())]. *)
Definition fd_N (d : OD.t Z) : Z := fold_right Z.add 0 (OD.values d).

(** ** Lists the way Python indexes them *)

(** [l[:n]]: a negative [n] counts from the end. *)
Definition slice_to {A : Type} (l : list A) (n : Z) : list A :=
  if 0 <=? n then firstn (Z.to_nat n) l
  else firstn (Z.to_nat (Z.of_nat (List.length l) + n)) l.

(** [enumerate(l)] starting at [i]. *)
Fixpoint enumerate_from {A : Type} (i : Z) (l : list A) : list (Z * A) :=
  match l with
  | [] => []
  | x :: l' => (i, x) :: enumerate_from (i + 1) l'
  end.

Definition enumerate {A : Type} (l : list A) : list (Z * A) := enumerate_from 0 l.

(** [sorted(items, key=lambda x: x[1], reverse=True)].  Python's sort is
    stable also with [reverse=True]: items with equal counts keep their
    original relative order.  Insertion from the right gives exactly
    that permutation. *)
Fixpoint insert_desc (x : string * Z) (l : list (string * Z)) : list (string * Z) :=
  match l with
  | [] => [x]
  | y :: l' => if snd y <=? snd x then x :: y :: l' else y :: insert_desc x l'
  end.

Definition sorted_desc (l : list (string * Z)) : list (string * Z) :=
  fold_right insert_desc [] l.

(** ** numpy arrays

    A one-dimensional array is a list of reals.  A two-dimensional array
    carries its number of columns, which numpy knows even when there is
    no row. *)

Definition vector := list R.

Record ndarray2 : Type := mkArray { shape1 : Z; mrows : list vector }.

Definition shape0 (m : ndarray2) : Z := Z.of_nat (List.length (mrows m)).

(** [v[i] = x] for an index already checked to be in range. *)
Fixpoint vset (v : vector) (i : nat) (x : R) : vector :=
  match v, i with
  | [], _ => []
  | _ :: v', O => x :: v'
  | y :: v', S i' => y :: vset v' i' x
  end.

Definition zeros (n : nat) : vector := repeat 0%R n.

(** ** Module-level definitions of the source *)

Definition kUNK : string := "<UNK>"%string.

(** [log10(x) = log(x) / log(10)]. *)
Definition log10 (x : R) : R := (ln x / ln 10)%R.

(** [str.lower()] on the letters A to Z; every other character is left
    as it is, so the definition follows Python on ASCII text only.  The
    instance holds its normalizer as an attribute and the general
    statements quantify over it. *)
Definition lower_ascii (c : ascii) : ascii :=
  let n := nat_of_ascii c in
  if ((65 <=? n) && (n <=? 90))%nat then ascii_of_nat (n + 32) else c.

Fixpoint lower (s : string) : string :=
  match s with
  | EmptyString => EmptyString
  | String c s' => String (lower_ascii c) (lower s')
  end.

(** ** The instance *)

(** [_doc_freq] is read by [inv_docfreq] and assigned nowhere in the
    class; [None] says that the instance has no such attribute.
    [_doc_vectors] is [None] until [train] or [load] assigns an array.
    [questions] and [answers] are assigned by the base class, in its
    [train] and when it loads; until then they are empty lists here,
    where Python has no such attribute yet. *)
Record engine : Type := mkEngine {
  _vocab_size : Z;
  _max_vocab_size : Z;
  _total_docs : Z;
  _doc_vectors : option ndarray2;
  _vocab_final : bool;
  _docs_final : bool;
  _vocab : OD.t Z;
  _unk_cutoff : Z;
  _tokenizer : string -> list string;
  _normalizer : string -> string;
  filename : string;
  _doc_counts : OD.t Z;
  _doc_freq : option (list (Z * Z));
  questions : list string;
  answers : list string
}.

(** [__init__]. *)
Definition init (fname : string) (max_vocab_size : Z)
    (tokenize_function : string -> list string)
    (normalize_function : string -> string) (unk_cutoff : Z) : engine :=
  {| _vocab_size := -1;
     _max_vocab_size := max_vocab_size;
     _total_docs := 0;
     _doc_vectors := None;
     _vocab_final := false;
     _docs_final := false;
     _vocab := [];
     _unk_cutoff := unk_cutoff;
     _tokenizer := tokenize_function;
     _normalizer := normalize_function;
     filename := fname;
     _doc_counts := [];
     _doc_freq := None;
     questions := [];
     answers := [] |}.

Definition set_vocab_size (e : engine) (n : Z) : engine :=
  {| _vocab_size := n; _max_vocab_size := _max_vocab_size e;
     _total_docs := _total_docs e; _doc_vectors := _doc_vectors e;
     _vocab_final := _vocab_final e; _docs_final := _docs_final e;
     _vocab := _vocab e; _unk_cutoff := _unk_cutoff e;
     _tokenizer := _tokenizer e; _normalizer := _normalizer e;
     filename := filename e; _doc_counts := _doc_counts e;
     _doc_freq := _doc_freq e; questions := questions e; answers := answers e |}.

Definition set_total_docs (e : engine) (n : Z) : engine :=
  {| _vocab_size := _vocab_size e; _max_vocab_size := _max_vocab_size e;
     _total_docs := n; _doc_vectors := _doc_vectors e;
     _vocab_final := _vocab_final e; _docs_final := _docs_final e;
     _vocab := _vocab e; _unk_cutoff := _unk_cutoff e;
     _tokenizer := _tokenizer e; _normalizer := _normalizer e;
     filename := filename e; _doc_counts := _doc_counts e;
     _doc_freq := _doc_freq e; questions := questions e; answers := answers e |}.

Definition set_doc_vectors (e : engine) (m : option ndarray2) : engine :=
  {| _vocab_size := _vocab_size e; _max_vocab_size := _max_vocab_size e;
     _total_docs := _total_docs e; _doc_vectors := m;
     _vocab_final := _vocab_final e; _docs_final := _docs_final e;
     _vocab := _vocab e; _unk_cutoff := _unk_cutoff e;
     _tokenizer := _tokenizer e; _normalizer := _normalizer e;
     filename := filename e; _doc_counts := _doc_counts e;
     _doc_freq := _doc_freq e; questions := questions e; answers := answers e |}.

Definition set_vocab_final (e : engine) (b : bool) : engine :=
  {| _vocab_size := _vocab_size e; _max_vocab_size := _max_vocab_size e;
     _total_docs := _total_docs e; _doc_vectors := _doc_vectors e;
     _vocab_final := b; _docs_final := _docs_final e;
     _vocab := _vocab e; _unk_cutoff := _unk_cutoff e;
     _tokenizer := _tokenizer e; _normalizer := _normalizer e;
     filename := filename e; _doc_counts := _doc_counts e;
     _doc_freq := _doc_freq e; questions := questions e; answers := answers e |}.

Definition set_docs_final (e : engine) (b : bool) : engine :=
  {| _vocab_size := _vocab_size e; _max_vocab_size := _max_vocab_size e;
     _total_docs := _total_docs e; _doc_vectors := _doc_vectors e;
     _vocab_final := _vocab_final e; _docs_final := b;
     _vocab := _vocab e; _unk_cutoff := _unk_cutoff e;
     _tokenizer := _tokenizer e; _normalizer := _normalizer e;
     filename := filename e; _doc_counts := _doc_counts e;
     _doc_freq := _doc_freq e; questions := questions e; answers := answers e |}.

Definition set_vocab (e : engine) (d : OD.t Z) : engine :=
  {| _vocab_size := _vocab_size e; _max_vocab_size := _max_vocab_size e;
     _total_docs := _total_docs e; _doc_vectors := _doc_vectors e;
     _vocab_final := _vocab_final e; _docs_final := _docs_final e;
     _vocab := d; _unk_cutoff := _unk_cutoff e;
     _tokenizer := _tokenizer e; _normalizer := _normalizer e;
     filename := filename e; _doc_counts := _doc_counts e;
     _doc_freq := _doc_freq e; questions := questions e; answers := answers e |}.

Definition set_doc_counts (e : engine) (d : OD.t Z) : engine :=
  {| _vocab_size := _vocab_size e; _max_vocab_size := _max_vocab_size e;
     _total_docs := _total_docs e; _doc_vectors := _doc_vectors e;
     _vocab_final := _vocab_final e; _docs_final := _docs_final e;
     _vocab := _vocab e; _unk_cutoff := _unk_cutoff e;
     _tokenizer := _tokenizer e; _normalizer := _normalizer e;
     filename := filename e; _doc_counts := d;
     _doc_freq := _doc_freq e; questions := questions e; answers := answers e |}.

Definition set_questions_answers (e : engine) (qs ans : list string) : engine :=
  {| _vocab_size := _vocab_size e; _max_vocab_size := _max_vocab_size e;
     _total_docs := _total_docs e; _doc_vectors := _doc_vectors e;
     _vocab_final := _vocab_final e; _docs_final := _docs_final e;
     _vocab := _vocab e; _unk_cutoff := _unk_cutoff e;
     _tokenizer := _tokenizer e; _normalizer := _normalizer e;
     filename := filename e; _doc_counts := _doc_counts e;
     _doc_freq := _doc_freq e; questions := qs; answers := ans |}.

(** ** Vocabulary builder *)

(** [vocab_seen(word, count)]. *)
Definition vocab_seen (e : engine) (word : string) (count : Z) : result unit * engine :=
  if _vocab_final e then (Raise AssertionError, e)
  else (Ok tt, set_doc_counts e (fd_add (_doc_counts e) word count)).

(** The dictionary comprehension of [finalize_vocab]:
    [{word: i for i, (word, count) in enumerate(sliced) if count >= cutoff}]. *)
Definition vocab_comprehension (sliced : list (string * Z)) (cutoff : Z) : OD.t Z :=
  fold_left
    (fun d '(i, (word, count)) => if cutoff <=? count then OD.set d word i else d)
    (enumerate sliced) [].

(** [finalize_vocab()].  The attributes are assigned before the size is
    checked, so a failed call leaves the new mapping in place with
    [_vocab_final] still false. *)
Definition finalize_vocab (e : engine) : result unit * engine :=
  let sorted_counts := sorted_desc (_doc_counts e) in
  let v0 := vocab_comprehension (slice_to sorted_counts (_max_vocab_size e)) (_unk_cutoff e) in
  let v1 := OD.set v0 kUNK (OD.len v0) in
  let e1 := set_vocab_size (set_vocab e v1) (OD.len v1) in
  if _vocab_size e1 <? _max_vocab_size e1
  then (Ok tt, set_vocab_final e1 true)
  else (Raise AssertionError, e1).

(** [vocab_lookup(word)]. *)
Definition vocab_lookup (e : engine) (word : string) : result Z :=
  assert! _vocab_final e ;;
  lookup <- (match OD.get (_vocab e) word with
             | Some i => Ok i
             | None =>
                 match OD.get (_vocab e) kUNK with
                 | Some i => Ok i
                 | None => Raise KeyError
                 end
             end) ;;
  assert! (0 <=? lookup) && (lookup <? _vocab_size e) ;;
  Ok lookup.

(** [vocab_key(word_id)]: the first key, in insertion order, holding the id. *)
Fixpoint vocab_key_in (d : OD.t Z) (word_id : Z) : string :=
  match d with
  | [] => kUNK
  | (word, id) :: d' => if id =? word_id then word else vocab_key_in d' word_id
  end.

Definition vocab_key (e : engine) (word_id : Z) : string :=
  vocab_key_in (_vocab e) word_id.

(** ** Tokens *)

(** What the generator [tokenize] yields: a string before the
    vocabulary is final, an id afterwards. *)
Inductive token : Type :=
| TStr (s : string)
| TId (i : Z).

(** [tokenize(sent)]: the items the generator yields, and the exception
    that ends it when a lookup fails. *)
Fixpoint tokenize_loop (e : engine) (raw : list string) : list token * option exn :=
  match raw with
  | [] => ([], None)
  | ii :: raw' =>
      let word := _normalizer e ii in
      if _vocab_final e then
        match vocab_lookup e word with
        | Ok i => let (out, x) := tokenize_loop e raw' in (TId i :: out, x)
        | Raise x => ([], Some x)
        end
      else let (out, x) := tokenize_loop e raw' in (TStr word :: out, x)
  end.

Definition tokenize (e : engine) (sent : string) : list token * option exn :=
  tokenize_loop e (_tokenizer e sent).

(** ** Document-frequency tracker *)

(** One turn of the loop of [scan_document]. *)
Definition scan_word (vocab : OD.t Z) (counts : OD.t Z) (word : string) : OD.t Z :=
  let word := if OD.mem vocab word then word else kUNK in
  fd_add counts word 1.

(** [scan_document(text)]. *)
Definition scan_document (e : engine) (text : string) : result unit * engine :=
  if negb (_vocab_final e) then (Raise AssertionError, e)
  else if _docs_final e then (Raise AssertionError, e)
  else
    let counts := fold_left (scan_word (_vocab e)) (_tokenizer e text) (_doc_counts e) in
    let e1 := set_doc_counts e counts in
    (Ok tt, set_total_docs e1 (_total_docs e1 + 1)).

(** ** Inverse document frequency *)

(** [table.get(word, 0)] on a mapping from ids to counts. *)
Fixpoint zd_get (d : list (Z * Z)) (k : Z) (default : Z) : Z :=
  match d with
  | [] => default
  | (k', v) :: d' => if k' =? k then v else zd_get d' k default
  end.

(** [log10(total_docs / (1 + doc_freq)) if doc_freq else 0].  The true
    division raises on a zero divisor and [math.log] raises on a
    quotient that is not positive; both tests are decided on the
    integers. *)
Definition inv_df (total_docs doc_freq : Z) : result R :=
  if doc_freq =? 0 then Ok 0%R
  else if 1 + doc_freq =? 0 then Raise ZeroDivisionError
  else if total_docs * (1 + doc_freq) <=? 0 then Raise ValueError
  else Ok (log10 (IZR total_docs / IZR (1 + doc_freq))).

(** [inv_docfreq(word)]. *)
Definition inv_docfreq (e : engine) (word : Z) : result R :=
  assert! _docs_final e ;;
  match _doc_freq e with
  | None => Raise AttributeError
  | Some table => inv_df (_total_docs e) (zd_get table word 0)
  end.

(** [global_freq(word)]. *)
Definition global_freq (e : engine) (word : Z) : result R :=
  let word_str := vocab_key e word in
  let total := fd_N (_doc_counts e) in
  if total =? 0 then Raise ZeroDivisionError
  else Ok (IZR (fd_get (_doc_counts e) word_str) / IZR total)%R.

(** The loop of [finalize_docs]: the arguments of the log call are
    evaluated for each of the first ten keys. *)
Fixpoint finalize_docs_loop (e : engine) (ws : list string) : result unit :=
  match ws with
  | [] => Ok tt
  | ww :: ws' =>
      match OD.get (_vocab e) ww with
      | None => Raise KeyError
      | Some vocab_lookup =>
          _ <- inv_docfreq e vocab_lookup ;;
          _ <- global_freq e vocab_lookup ;;
          finalize_docs_loop e ws'
      end
  end.

(** [finalize_docs()]. *)
Definition finalize_docs (e : engine) : result unit * engine :=
  let e1 := set_docs_final e true in
  (finalize_docs_loop e1 (firstn 10 (OD.keys (_vocab e1))), e1).

(** ** Embedder *)

(** [FreqDist.freq(sample)]. *)
Definition fd_freq (d : OD.t Z) (sample : string) : R :=
  if fd_N d =? 0 then 0%R else (IZR (fd_get d sample) / IZR (fd_N d))%R.

(** The body of the loop of [embed]. *)
Definition embed_word (e : engine) (doc_frequency : OD.t Z) (v : vector)
    (word : string) : result vector :=
  index <- vocab_lookup e word ;;
  idf <- inv_docfreq e index ;;
  Ok (vset v (Z.to_nat index) (fd_freq doc_frequency word * idf)%R).

Fixpoint embed_loop (e : engine) (doc_frequency : OD.t Z) (ws : list string)
    (v : vector) : result vector :=
  match ws with
  | [] => Ok v
  | word :: ws' =>
      v' <- embed_word e doc_frequency v word ;;
      embed_loop e doc_frequency ws' v'
  end.

(** [embed(text)].  [np.zeros] refuses a negative length, which is what
    [_vocab_size] holds before the vocabulary is final. *)
Definition embed (e : engine) (text : string) : result vector :=
  if _vocab_size e <? 0 then Raise ValueError
  else
    let v := zeros (Z.to_nat (_vocab_size e)) in
    let doc_frequency :=
      FreqDist (filter (OD.mem (_vocab e)) (_tokenizer e text)) in
    embed_loop e doc_frequency (OD.keys doc_frequency) v.

(** ** Similarity search *)

Definition dot (a b : vector) : R :=
  fold_right Rplus 0%R (map (fun p => (fst p * snd p)%R) (combine a b)).

Definition norm (a : vector) : R := sqrt (dot a a).

(** Cosine similarity as [sklearn] computes it: a vector of norm zero is
    left as it is by the normalisation, so its similarity with anything
    is 0. *)
Definition cosine (a b : vector) : R :=
  if Req_dec_T (norm a) 0 then 0%R
  else if Req_dec_T (norm b) 0 then 0%R
  else (dot a b / (norm a * norm b))%R.

(** [cosine_similarity(q.reshape(1, -1), Y)[0]].  [sklearn] validates
    its arguments: at least one feature, at least one sample, the same
    number of features; [Y = None] stands for [Y = X]. *)
Definition cosine_similarity_row (q : vector) (Y : option ndarray2) : result (list R) :=
  if (List.length q =? 0)%nat then Raise ValueError
  else
    match Y with
    | None => Ok [cosine q q]
    | Some m =>
        if shape0 m =? 0 then Raise ValueError
        else if shape1 m =? Z.of_nat (List.length q) then Ok (map (cosine q) (mrows m))
        else Raise ValueError
    end.

(** [ndarray.argmax()]: the index of the first occurrence of the
    maximum; an empty array is refused. *)
Fixpoint argmax_from (best_i : nat) (best : R) (i : nat) (l : list R) : nat :=
  match l with
  | [] => best_i
  | x :: l' =>
      if Rlt_dec best x then argmax_from i x (S i) l'
      else argmax_from best_i best (S i) l'
  end.

Definition argmax (l : list R) : result nat :=
  match l with
  | [] => Raise ValueError
  | x :: l' => Ok (argmax_from 0 x 1 l')
  end.

(** Lines 107 and 108 of [__call__]: the search proper. *)
Definition find_best_match (q : vector) (Y : option ndarray2) : result (nat * R) :=
  similarities <- cosine_similarity_row q Y ;;
  best <- argmax similarities ;;
  Ok (best, nth best similarities 0%R).

(** [l[i]] for a non-negative [i]. *)
Definition index {A : Type} (l : list A) (i : nat) : result A :=
  match nth_error l i with
  | Some x => Ok x
  | None => Raise IndexError
  end.

Record guess : Type := mkGuess {
  g_question : string;
  g_guess : string;
  g_confidence : R
}.

(** [__call__(question, max_n_guesses)]. *)
Definition call (e : engine) (question : string) (max_n_guesses : Z) : result guess :=
  assert! (max_n_guesses =? 1) ;;
  question_tfidf <- embed e question ;;
  bs <- find_best_match question_tfidf (_doc_vectors e) ;;
  q <- index (questions e) (fst bs) ;;
  a <- index (answers e) (fst bs) ;;
  Ok {| g_question := q; g_guess := a; g_confidence := snd bs |}.

(** ** The search on the scores of the library

    [cosine_similarity] computes its scores in float64 inside sklearn;
    the order of those operations is the library's, not this file's.
    Here the scores are a parameter: [scores q rows] is the list of the
    values the library computes for the query [q] against [rows], each
    read as the real number it stands for (a score is a finite float).
    The validation of the arguments and the [argmax] stay as above. *)
Section LibraryScores.

Variable scores : vector -> list vector -> list R.

Definition cosine_similarity_row_with (q : vector) (Y : option ndarray2)
    : result (list R) :=
  if (List.length q =? 0)%nat then Raise ValueError
  else
    match Y with
    | None => Ok (scores q [q])
    | Some m =>
        if shape0 m =? 0 then Raise ValueError
        else if shape1 m =? Z.of_nat (List.length q) then Ok (scores q (mrows m))
        else Raise ValueError
    end.

Definition find_best_match_with (q : vector) (Y : option ndarray2)
    : result (nat * R) :=
  similarities <- cosine_similarity_row_with q Y ;;
  best <- argmax similarities ;;
  Ok (best, nth best similarities 0%R).

Definition call_with (e : engine) (question : string) (max_n_guesses : Z)
    : result guess :=
  assert! (max_n_guesses =? 1) ;;
  question_tfidf <- embed e question ;;
  bs <- find_best_match_with question_tfidf (_doc_vectors e) ;;
  q <- index (questions e) (fst bs) ;;
  a <- index (answers e) (fst bs) ;;
  Ok {| g_question := q; g_guess := a; g_confidence := snd bs |}.

End LibraryScores.

(** The scores in exact arithmetic. *)
Definition exact_scores (q : vector) (rows : list vector) : list R :=
  map (cosine q) rows.

(** ** Training *)

(** Methods that assign attributes, chained: the state reached so far
    is kept when one of them raises. *)
Definition M (A : Type) : Type := engine -> result A * engine.

Definition and_then {A B : Type} (m : M A) (k : A -> M B) : M B :=
  fun e =>
    match m e with
    | (Ok a, e') => k a e'
    | (Raise x, e') => (Raise x, e')
    end.

Notation "m >> k" := (and_then m (fun _ => k))
  (at level 62, right associativity) : py_scope.

Fixpoint for_each {A : Type} (body : A -> M unit) (l : list A) : M unit :=
  match l with
  | [] => fun e => (Ok tt, e)
  | x :: l' => body x >> for_each body l'
  end.

(** [vocab_seen] on an item of [tokenize].  Ids are yielded only when
    the vocabulary is final, which is when the assertion of
    [vocab_seen] fails. *)
Definition vocab_seen_token (tok : token) : M unit :=
  fun e =>
    match tok with
    | TStr word => vocab_seen e word 1
    | TId _ => (Raise AssertionError, e)
    end.

(** [for word in self.tokenize(question): self.vocab_seen(word)]. *)
Definition observe_question (question : string) : M unit :=
  fun e =>
    let (items, x) := tokenize e question in
    match for_each vocab_seen_token items e with
    | (Ok _, e') =>
        match x with
        | None => (Ok tt, e')
        | Some x => (Raise x, e')
        end
    | r => r
    end.

(** [self._doc_vectors[row_id] = v]. *)
Fixpoint set_nth {A : Type} (l : list A) (i : nat) (x : A) : list A :=
  match l, i with
  | [], _ => []
  | _ :: l', O => x :: l'
  | y :: l', S i' => y :: set_nth l' i' x
  end.

Definition set_row (e : engine) (row_id : nat) (v : vector) : engine :=
  match _doc_vectors e with
  | Some m =>
      set_doc_vectors e
        (Some {| shape1 := shape1 m; mrows := set_nth (mrows m) row_id v |})
  | None => e
  end.

Fixpoint fill_rows (row_id : nat) (qs : list string) : M unit :=
  match qs with
  | [] => fun e => (Ok tt, e)
  | question :: qs' =>
      fun e =>
        match embed e question with
        | Ok v => fill_rows (S row_id) qs' (set_row e row_id v)
        | Raise x => (Raise x, e)
        end
  end.

(** [train]: [qs] and [ans] are the questions and answers that the base
    class extracts from the training data. *)
Definition train (qs ans : list string) : M unit :=
  (fun e => (Ok tt, set_questions_answers e qs ans)) >>
  for_each observe_question qs >>
  finalize_vocab >>
  for_each (fun question e => scan_document e question) qs >>
  finalize_docs >>
  (fun e =>
     if _total_docs e =? Z.of_nat (List.length (questions e))
     then (Ok tt, e) else (Raise AssertionError, e)) >>
  (fun e =>
     (Ok tt,
      set_doc_vectors e
        (Some {| shape1 := _vocab_size e;
                 mrows := repeat (zeros (Z.to_nat (_vocab_size e)))
                            (List.length (questions e)) |}))) >>
  (fun e => fill_rows 0 (questions e) e).

(** ** Persistence *)

(** What [pickle] stores in a file. *)
Inductive pickled : Type :=
| PDict (d : OD.t Z)
| PArray (m : option ndarray2)
| PStrings (l : list string).

(** The files, by path. *)
Definition files := OD.t pickled.

Definition vocab_path (path : string) : string := (path ++ ".vocab.pkl")%string.
Definition tfidf_path (path : string) : string := (path ++ ".tfidf.pkl")%string.
Definition doccounts_path (path : string) : string := (path ++ ".doccounts.pkl")%string.

Section Persistence.

(** The two methods of the base class [Guesser], which is not part of
    the file: what the first writes and what the second reads back. *)
Variable save_questions_and_answers : engine -> files -> files.
Variable load_questions_and_answers : engine -> files -> result (list string * list string).

(** [save()]. *)
Definition save (e : engine) (fs : files) : files :=
  let path := filename e in
  let fs := save_questions_and_answers e fs in
  let fs := OD.set fs (vocab_path path) (PDict (_vocab e)) in
  let fs := OD.set fs (tfidf_path path) (PArray (_doc_vectors e)) in
  OD.set fs (doccounts_path path) (PDict (_doc_counts e)).

Definition read_dict (fs : files) (p : string) : result (OD.t Z) :=
  match OD.get fs p with
  | Some (PDict d) => Ok d
  | _ => Raise ValueError
  end.

Definition read_array (fs : files) (p : string) : result (option ndarray2) :=
  match OD.get fs p with
  | Some (PArray m) => Ok m
  | _ => Raise ValueError
  end.

(** [load()].  A missing file, or one holding another kind of object,
    ends the call. *)
Definition load (fs : files) : M unit :=
  (fun e =>
     match load_questions_and_answers e fs with
     | Ok (qs, ans) => (Ok tt, set_questions_answers e qs ans)
     | Raise x => (Raise x, e)
     end) >>
  (fun e =>
     match read_dict fs (vocab_path (filename e)) with
     | Ok d =>
         let e := set_vocab e d in
         let e := set_vocab_size e (OD.len (_vocab e)) in
         (Ok tt, set_vocab_final e true)
     | Raise x => (Raise x, e)
     end) >>
  (fun e =>
     match read_array fs (tfidf_path (filename e)) with
     | Ok m => (Ok tt, set_doc_vectors e m)
     | Raise x => (Raise x, e)
     end) >>
  (fun e =>
     match read_dict fs (doccounts_path (filename e)) with
     | Ok d => (Ok tt, set_doc_counts e d)
     | Raise x => (Raise x, e)
     end) >>
  (fun e =>
     match _doc_vectors e with
     | Some m =>
         let e := set_total_docs e (shape0 m) in
         let e := set_docs_final e true in
         if _vocab_size e =? shape1 m then (Ok tt, e)
         else (Raise AssertionError, e)
     | None => (Raise AttributeError, e)
     end).

End Persistence.

(** ** The dictionary form of a document's vector *)

(** Dictionaries with keys that are not strings: the counter over what
    [tokenize] yields, and the result of [doc_tfidf], whose keys are
    pairs of an id and a raw token. *)
Module KD.
Section Dict.
Context {K V : Type} (eqb : K -> K -> bool).

Definition t := list (K * V).

Fixpoint get (d : t) (k : K) : option V :=
  match d with
  | [] => None
  | (k', v) :: d' => if eqb k' k then Some v else get d' k
  end.

Fixpoint set (d : t) (k : K) (v : V) : t :=
  match d with
  | [] => [(k, v)]
  | (k', v') :: d' =>
      if eqb k' k then (k', v) :: d' else (k', v') :: set d' k v
  end.
End Dict.
End KD.

(** Equality of the items of [tokenize]: a string and an id are never
    equal. *)
Definition token_eqb (a b : token) : bool :=
  match a, b with
  | TStr s, TStr s' => String.eqb s s'
  | TId i, TId i' => i =? i'
  | _, _ => false
  end.

Definition key_eqb (a b : Z * string) : bool :=
  (fst a =? fst b) && String.eqb (snd a) (snd b).

(** [FreqDist(self.tokenize(doc))], its [N()] and its [freq(sample)]. *)
Definition tc_get (d : list (token * Z)) (t : token) : Z :=
  match KD.get token_eqb d t with Some c => c | None => 0 end.

Definition token_counts (items : list token) : list (token * Z) :=
  fold_left (fun d t => KD.set token_eqb d t (tc_get d t + 1)) items [].

Definition tc_N (d : list (token * Z)) : Z := fold_right Z.add 0 (map snd d).

Definition tc_freq (d : list (token * Z)) (sample : token) : R :=
  if tc_N d =? 0 then 0%R else (IZR (tc_get d sample) / IZR (tc_N d))%R.

(** The body of the loop of [doc_tfidf]: the raw token is looked up as
    it is, without the normalizer. *)
Definition doc_tfidf_word (e : engine) (counts : list (token * Z))
    (d : list ((Z * string) * R)) (ii : string) : result (list ((Z * string) * R)) :=
  ww <- vocab_lookup e ii ;;
  idf <- inv_docfreq e ww ;;
  Ok (KD.set key_eqb d (ww, ii) (tc_freq counts (TId ww) * idf)%R).

Fixpoint doc_tfidf_loop (e : engine) (counts : list (token * Z))
    (raw : list string) (d : list ((Z * string) * R))
    : result (list ((Z * string) * R)) :=
  match raw with
  | [] => Ok d
  | ii :: raw' =>
      d' <- doc_tfidf_word e counts d ii ;;
      doc_tfidf_loop e counts raw' d'
  end.

(** [doc_tfidf(doc)].  The counter consumes the generator [tokenize]
    first, so an exception of a lookup there comes before the loop. *)
Definition doc_tfidf (e : engine) (doc : string) : result (list ((Z * string) * R)) :=
  assert! _docs_final e ;;
  match tokenize e doc with
  | (_, Some x) => Raise x
  | (items, None) =>
      doc_tfidf_loop e (token_counts items) (_tokenizer e doc) []
  end.

(** ** A tokenizer for examples: split on spaces *)

Fixpoint words_aux (cur : string) (s : string) : list string :=
  match s with
  | EmptyString => if String.eqb cur EmptyString then [] else [cur]
  | String c s' =>
      if Ascii.eqb c " " then
        (if String.eqb cur EmptyString then words_aux EmptyString s'
         else cur :: words_aux EmptyString s')
      else words_aux (cur ++ String c EmptyString) s'
  end.

Definition words (s : string) : list string := words_aux EmptyString s.

(** * Vocabulary of the statements *)

(** The key under which [scan_document] counts a raw token. *)
Definition scan_key (vocab : OD.t Z) (word : string) : string :=
  if OD.mem vocab word then word else kUNK.

(** How many of the tokens are counted under the key [w]. *)
Fixpoint occurrences (vocab : OD.t Z) (w : string) (toks : list string) : Z :=
  match toks with
  | [] => 0
  | t :: toks' =>
      (if String.eqb (scan_key vocab t) w then 1 else 0) + occurrences vocab w toks'
  end.

(** The instances a program can build with the methods of the class,
    starting from [__init__]. *)
Inductive reachable : engine -> Prop :=
| reach_init fname max_vocab_size tokenize_function normalize_function unk_cutoff :
    reachable (init fname max_vocab_size tokenize_function normalize_function unk_cutoff)
| reach_vocab_seen e word count :
    reachable e -> reachable (snd (vocab_seen e word count))
| reach_finalize_vocab e :
    reachable e -> reachable (snd (finalize_vocab e))
| reach_scan_document e text :
    reachable e -> reachable (snd (scan_document e text))
| reach_finalize_docs e :
    reachable e -> reachable (snd (finalize_docs e))
| reach_train e qs ans :
    reachable e -> reachable (snd (train qs ans e))
| reach_load e load_questions_and_answers fs :
    reachable e -> reachable (snd (load load_questions_and_answers fs e)).

(** A method that leaves the attribute [_doc_freq] as it found it. *)
Definition keeps_doc_freq {A : Type} (m : M A) : Prop :=
  forall e, _doc_freq (snd (m e)) = _doc_freq e.

(** [vocab_seen(w)] for each word of a list, in order. *)
Definition observe (ws : list string) (e : engine) : engine :=
  fold_left (fun e w => snd (vocab_seen e w 1)) ws e.

(** A small instance: whitespace tokenizer, [lower], at most 10 ids,
    cutoff 2. *)
Definition toy : engine := init "toy"%string 10 words lower 2.

(** [toy] after seeing "a" twice and finalizing: the vocabulary is
    [{"a": 0, "<UNK>": 1}]. *)
Definition toy_a : engine :=
  snd (finalize_vocab (observe ["a"; "a"]%string toy)).

(** [toy] after seeing the string of the unknown token itself twice and
    finalizing. *)
Definition toy_unk : engine :=
  snd (finalize_vocab (observe [kUNK; kUNK] toy)).

(** [toy_a] after scanning one document and finalizing the documents. *)
Definition toy_a_docs : engine :=
  snd (finalize_docs (snd (scan_document toy_a "a b"%string))).

(** The order [sorted(..., reverse=True)] establishes on the counts. *)
Definition by_count_desc (a b : string * Z) : Prop := snd b <= snd a.

(** The items of a list that carry the count [c], in their order. *)
Definition with_count (c : Z) (l : list (string * Z)) : list (string * Z) :=
  filter (fun p => snd p =? c) l.

Definition count_ge (cutoff : Z) (p : string * Z) : bool := cutoff <=? snd p.

(** The tokens [finalize_vocab] keeps: those of the slice of the sorted
    counts whose count reaches the cutoff. *)
Definition kept_tokens (e : engine) : list (string * Z) :=
  filter (count_ge (_unk_cutoff e))
    (slice_to (sorted_desc (_doc_counts e)) (_max_vocab_size e)).

(** The mapping that gives the words the ids [i], [i + 1], ... in order. *)
Fixpoint number_ids (i : Z) (ws : list string) : OD.t Z :=
  match ws with
  | [] => []
  | w :: ws' => (w, i) :: number_ids (i + 1) ws'
  end.

(** Seven observations of four words: counts a 2, b 2, c 2, d 1. *)
Definition toy_seen : engine :=
  observe ["a"; "b"; "a"; "c"; "c"; "b"; "d"]%string toy.

(** An instance with room for two ids only that saw two words once,
    with cutoff 1. *)
Definition tiny_seen : engine :=
  observe ["a"; "b"]%string (init "tiny"%string 2 words lower 1).

(** [i] is the index of the first occurrence of the maximum of [l]. *)
Definition is_first_max (l : list R) (i : nat) : Prop :=
  (i < List.length l)%nat /\
  (forall j, (j < List.length l)%nat -> (nth j l 0 <= nth i l 0)%R) /\
  (forall j, (j < i)%nat -> (nth j l 0 < nth i l 0)%R).

(** How many times [w] occurs in a list of tokens. *)
Fixpoint count_word (w : string) (l : list string) : Z :=
  match l with
  | [] => 0
  | t :: l' => (if String.eqb t w then 1 else 0) + count_word w l'
  end.

(** The tokens of a text that [embed] counts: those in the vocabulary. *)
Definition in_vocab_tokens (e : engine) (text : string) : list string :=
  filter (OD.mem (_vocab e)) (_tokenizer e text).

(** Occurrences of [w] over the number of counted tokens. *)
Definition term_frequency (toks : list string) (w : string) : R :=
  (IZR (count_word w toks) / IZR (Z.of_nat (List.length toks)))%R.

(** The value of [inv_docfreq], 0 standing for an exception. *)
Definition idf_of (e : engine) (i : Z) : R :=
  match inv_docfreq e i with
  | Ok x => x
  | Raise _ => 0%R
  end.

(** The state the class intends after training, with the table of
    document frequencies that [inv_docfreq] reads in place: both phases
    final, the size that of the mapping, ids in range and distinct, at
    least one document, no negative frequency. *)
Record statistics_ready (e : engine) (table : list (Z * Z)) : Prop := {
  sr_vocab_final : _vocab_final e = true;
  sr_docs_final : _docs_final e = true;
  sr_table : _doc_freq e = Some table;
  sr_size : _vocab_size e = OD.len (_vocab e);
  sr_docs : 1 <= _total_docs e;
  sr_freq : forall i, 0 <= zd_get table i 0;
  sr_range : forall w i, OD.get (_vocab e) w = Some i -> 0 <= i < _vocab_size e;
  sr_inj : forall w w' i,
      OD.get (_vocab e) w = Some i -> OD.get (_vocab e) w' = Some i -> w = w'
}.

(** Every entry of the vector is zero or a non-negative multiple of the
    inverse document frequency of its index. *)
Definition signed_by_idf (e : engine) (v : vector) : Prop :=
  forall n : nat,
    nth n v 0%R = 0%R \/
    exists c x : R,
      (0 <= c)%R /\ inv_docfreq e (Z.of_nat n) = Ok x /\ nth n v 0%R = (c * x)%R.

(** An instance in the intended trained state: vocabulary
    [{"a": 0, "<UNK>": 1}], ten documents, "a" in four of them and
    unknown tokens in two, and the table [_doc_freq] present. *)
Definition toy_trained : engine :=
  {| _vocab_size := 2;
     _max_vocab_size := 10;
     _total_docs := 10;
     _doc_vectors := None;
     _vocab_final := true;
     _docs_final := true;
     _vocab := [("a"%string, 0); (kUNK, 1)];
     _unk_cutoff := 2;
     _tokenizer := words;
     _normalizer := lower;
     filename := "toy"%string;
     _doc_counts := [("a"%string, 6); (kUNK, 2)];
     _doc_freq := Some [(0, 4); (1, 2)];
     questions := [];
     answers := [] |}.

(** A corpus of one document, "a": vocabulary [{"a": 0, "<UNK>": 1}],
    one document, "a" in one document; the table is present. *)
Definition one_doc_base : engine :=
  {| _vocab_size := 2;
     _max_vocab_size := 10;
     _total_docs := 1;
     _doc_vectors := None;
     _vocab_final := true;
     _docs_final := true;
     _vocab := [("a"%string, 0); (kUNK, 1)];
     _unk_cutoff := 1;
     _tokenizer := words;
     _normalizer := lower;
     filename := "one"%string;
     _doc_counts := [("a"%string, 2)];
     _doc_freq := Some [(0, 1)];
     questions := ["a"%string];
     answers := ["A"%string] |}.

(** The row that the third pass of [train] computes for its document. *)
Definition one_doc_row : vector :=
  match embed one_doc_base "a"%string with
  | Ok v => v
  | Raise _ => []
  end.

Definition one_doc : engine :=
  set_doc_vectors one_doc_base (Some {| shape1 := 2; mrows := [one_doc_row] |}).

(** An implementation of the two methods of the base class for the
    examples: the questions and the answers go to two more files. *)
Definition sample_save_questions_and_answers (e : engine) (fs : files) : files :=
  OD.set
    (OD.set fs (filename e ++ ".questions.pkl")%string (PStrings (questions e)))
    (filename e ++ ".answers.pkl")%string (PStrings (answers e)).

Definition sample_load_questions_and_answers (e : engine) (fs : files)
    : result (list string * list string) :=
  match OD.get fs (filename e ++ ".questions.pkl")%string,
        OD.get fs (filename e ++ ".answers.pkl")%string with
  | Some (PStrings qs), Some (PStrings ans) => Ok (qs, ans)
  | _, _ => Raise ValueError
  end.

(** An instance as [train] means to leave it, without the table that
    no method assigns: one document with no known word, so a row of
    zeros. *)
Definition saved_engine : engine :=
  {| _vocab_size := 2;
     _max_vocab_size := 10;
     _total_docs := 1;
     _doc_vectors := Some {| shape1 := 2; mrows := [zeros 2] |};
     _vocab_final := true;
     _docs_final := true;
     _vocab := [("a"%string, 0); (kUNK, 1)];
     _unk_cutoff := 2;
     _tokenizer := words;
     _normalizer := lower;
     filename := "one"%string;
     _doc_counts := [("a"%string, 2); (kUNK, 1)];
     _doc_freq := None;
     questions := ["b"%string];
     answers := ["B"%string] |}.

(** [vocab_seen(w, c)] for each pair of a list, in order. *)
Definition observe_counts (l : list (string * Z)) (e : engine) : engine :=
  fold_left (fun e p => snd (vocab_seen e (fst p) (snd p))) l e.

(** The sum of the counts given for [w] in a list of pairs. *)
Fixpoint total_for (w : string) (l : list (string * Z)) : Z :=
  match l with
  | [] => 0
  | (w', c) :: l' => (if String.eqb w' w then c else 0) + total_for w l'
  end.

(** The normalized tokens of a text, and of a list of texts. *)
Definition normalized_tokens (e : engine) (text : string) : list string :=
  map (_normalizer e) (_tokenizer e text).

Definition corpus_tokens (e : engine) (qs : list string) : list string :=
  flat_map (normalized_tokens e) qs.

(** Occurrences counted under the key [w] over a list of documents. *)
Fixpoint corpus_occurrences (e : engine) (w : string) (qs : list string) : Z :=
  match qs with
  | [] => 0
  | q :: qs' =>
      occurrences (_vocab e) w (_tokenizer e q) + corpus_occurrences e w qs'
  end.

(** A vocabulary as the data model wants it: final, keys distinct, the
    size that of the mapping, ids in range and distinct, every id in
    range taken, the unknown token on the last id. *)
Record vocab_wf (e : engine) : Prop := {
  wf_final : _vocab_final e = true;
  wf_keys : NoDup (OD.keys (_vocab e));
  wf_size : _vocab_size e = OD.len (_vocab e);
  wf_range : forall w i, OD.get (_vocab e) w = Some i -> 0 <= i < _vocab_size e;
  wf_inj : forall w w' i,
      OD.get (_vocab e) w = Some i -> OD.get (_vocab e) w' = Some i -> w = w';
  wf_dense : forall i, 0 <= i < _vocab_size e -> exists w, OD.get (_vocab e) w = Some i;
  wf_unk : OD.get (_vocab e) kUNK = Some (_vocab_size e - 1)
}.

(** The instances built from [__init__] without [load]. *)
Inductive built : engine -> Prop :=
| built_init fname max_vocab_size tokenize_function normalize_function unk_cutoff :
    built (init fname max_vocab_size tokenize_function normalize_function unk_cutoff)
| built_vocab_seen e word count :
    built e -> built (snd (vocab_seen e word count))
| built_finalize_vocab e :
    built e -> built (snd (finalize_vocab e))
| built_scan_document e text :
    built e -> built (snd (scan_document e text))
| built_finalize_docs e :
    built e -> built (snd (finalize_docs e))
| built_train e qs ans :
    built e -> built (snd (train qs ans e)).

(** A method that leaves what [f] reads as it found it. *)
Definition keeps {X A : Type} (f : engine -> X) (m : M A) : Prop :=
  forall e, f (snd (m e)) = f e.

(** The id [vocab_lookup] gives a word on a well-formed vocabulary. *)
Definition word_id (e : engine) (w : string) : Z :=
  match OD.get (_vocab e) w with
  | Some i => i
  | None => _vocab_size e - 1
  end.

(** The ids that [tokenize] yields for a document. *)
Definition doc_ids (e : engine) (doc : string) : list Z :=
  map (fun ii => word_id e (_normalizer e ii)) (_tokenizer e doc).

Fixpoint count_id (i : Z) (ids : list Z) : Z :=
  match ids with
  | [] => 0
  | j :: ids' => (if j =? i then 1 else 0) + count_id i ids'
  end.

(** The share of the id [i] among the ids of a document. *)
Definition id_frequency (e : engine) (doc : string) (i : Z) : R :=
  (IZR (count_id i (doc_ids e doc)) / IZR (Z.of_nat (List.length (doc_ids e doc))))%R.

(** How many observed words reach the cutoff. *)
Definition qualifying (e : engine) : Z :=
  Z.of_nat (List.length (filter (count_ge (_unk_cutoff e)) (_doc_counts e))).

(** Counts a 2, b 3: the word seen second is seen more often. *)
Definition toy_ranked : engine :=
  observe ["a"; "b"; "b"; "a"; "b"]%string toy.

(** The instance after the first pass of [train]: questions and answers
    stored, every question tokenized and its words counted. *)
Definition after_first_pass (e : engine) (qs ans : list string) : engine :=
  snd (for_each observe_question qs (set_questions_answers e qs ans)).

(** The instance [train] leaves on the two documents "a a" and "a b":
    [finalize_docs] has raised, with both phases marked final. *)
Definition toy_after_train : engine :=
  snd (train ["a a"; "a b"]%string ["A"; "B"]%string toy).

(** An instance that saw the string of the unknown token three times
    and "a" twice. *)
Definition toy_unk_top : engine :=
  observe [kUNK; "a"; kUNK; "a"; kUNK]%string toy.

(** * Properties *)

(** ** Dictionaries *)

Lemma od_get_set_eq {V : Type} (d : OD.t V) (k : string) (v : V) :
  OD.get (OD.set d k v) k = Some v.
Proof.
  induction d as [|[k' v'] d IH]; simpl.
  - now rewrite String.eqb_refl.
  - destruct (String.eqb k' k) eqn:E; simpl; rewrite E; auto.
Qed.

Lemma od_get_set_neq {V : Type} (d : OD.t V) (k k' : string) (v : V) :
  k <> k' -> OD.get (OD.set d k v) k' = OD.get d k'.
Proof.
  intros Hne. induction d as [|[k0 v0] d IH]; simpl.
  - destruct (String.eqb_spec k k'); [contradiction | reflexivity].
  - destruct (String.eqb_spec k0 k) as [->|Hk]; simpl.
    + destruct (String.eqb_spec k k'); [contradiction | reflexivity].
    + destruct (String.eqb_spec k0 k'); auto.
Qed.

Lemma od_get_none_not_in {V : Type} (d : OD.t V) (k : string) :
  OD.get d k = None <-> ~ In k (OD.keys d).
Proof.
  induction d as [|[k' v'] d IH]; simpl.
  - tauto.
  - destruct (String.eqb_spec k' k) as [->|Hk].
    + split; [discriminate | intros H; exfalso; apply H; now left].
    + rewrite IH. split; [intros H [E|HI]; [congruence | auto] | intros H HI; apply H; now right].
Qed.

Lemma od_mem_in {V : Type} (d : OD.t V) (k : string) :
  OD.mem d k = true <-> In k (OD.keys d).
Proof.
  unfold OD.mem. destruct (OD.get d k) eqn:E.
  - split; auto. intros _.
    destruct (in_dec string_dec k (OD.keys d)) as [HI|HI]; auto.
    apply od_get_none_not_in in HI. congruence.
  - split; [discriminate|]. intros HI. apply od_get_none_not_in in E. contradiction.
Qed.

(** A key that is not in the dictionary is appended. *)
Lemma od_set_fresh {V : Type} (d : OD.t V) (k : string) (v : V) :
  ~ In k (OD.keys d) -> OD.set d k v = d ++ [(k, v)].
Proof.
  induction d as [|[k' v'] d IH]; simpl; intros H; auto.
  destruct (String.eqb_spec k' k) as [->|Hk].
  - exfalso. apply H. now left.
  - f_equal. apply IH. intros HI. apply H. now right.
Qed.

(** Assigning to a key that is present keeps the keys and their order. *)
Lemma od_keys_set_present {V : Type} (d : OD.t V) (k : string) (v : V) :
  In k (OD.keys d) -> OD.keys (OD.set d k v) = OD.keys d.
Proof.
  induction d as [|[k' v'] d IH]; simpl; intros H; [contradiction|].
  destruct (String.eqb_spec k' k) as [->|Hk]; simpl; auto.
  f_equal. apply IH. destruct H; [contradiction | assumption].
Qed.

Lemma od_keys_set {V : Type} (d : OD.t V) (k : string) (v : V) :
  OD.keys (OD.set d k v) =
  if OD.mem d k then OD.keys d else OD.keys d ++ [k].
Proof.
  destruct (OD.mem d k) eqn:E.
  - apply od_keys_set_present, od_mem_in, E.
  - rewrite od_set_fresh.
    + unfold OD.keys. now rewrite map_app.
    + intros HI. apply od_mem_in in HI. congruence.
Qed.

Lemma od_keys_set_NoDup {V : Type} (d : OD.t V) (k : string) (v : V) :
  NoDup (OD.keys d) -> NoDup (OD.keys (OD.set d k v)).
Proof.
  intros Hnd. rewrite od_keys_set. destruct (OD.mem d k) eqn:E; auto.
  apply NoDup_app; auto.
  - constructor; [intros []|constructor].
  - intros x Hx [<-|[]]. apply od_mem_in in Hx. congruence.
Qed.

Lemma fd_get_fd_add (d : OD.t Z) (k k' : string) (n : Z) :
  fd_get (fd_add d k n) k' =
  if String.eqb k k' then fd_get d k + n else fd_get d k'.
Proof.
  unfold fd_add. destruct (String.eqb_spec k k') as [<-|Hne].
  - unfold fd_get at 1. now rewrite od_get_set_eq.
  - unfold fd_get at 1 3. now rewrite od_get_set_neq.
Qed.

(** ** The document scan counts occurrences *)

Lemma scan_fold_counts (vocab : OD.t Z) (toks : list string) :
  forall (counts : OD.t Z) (w : string),
    fd_get (fold_left (scan_word vocab) toks counts) w =
    fd_get counts w + occurrences vocab w toks.
Proof.
  induction toks as [|t toks IH]; intros counts w; simpl.
  - lia.
  - rewrite IH. unfold scan_word. fold (scan_key vocab t).
    rewrite fd_get_fd_add.
    destruct (String.eqb_spec (scan_key vocab t) w) as [->|Hne]; lia.
Qed.

(** What [scan_document] does to the counters and to the number of
    documents: every counter grows by the number of occurrences counted
    under its key. *)
Lemma scan_document_counts (e : engine) (text w : string) :
  _vocab_final e = true -> _docs_final e = false ->
  let r := scan_document e text in
  fst r = Ok tt /\
  _total_docs (snd r) = _total_docs e + 1 /\
  fd_get (_doc_counts (snd r)) w =
    fd_get (_doc_counts e) w + occurrences (_vocab e) w (_tokenizer e text).
Proof.
  intros Hv Hd. unfold scan_document. rewrite Hv, Hd. simpl.
  repeat split. apply scan_fold_counts.
Qed.

(** ** No method assigns [_doc_freq] *)

Lemma keeps_and_then {A B : Type} (m : M A) (k : A -> M B) :
  keeps_doc_freq m -> (forall a, keeps_doc_freq (k a)) -> keeps_doc_freq (and_then m k).
Proof.
  intros Hm Hk e. unfold and_then. specialize (Hm e).
  destruct (m e) as [[a|x] e']; simpl in *; [|assumption].
  now rewrite Hk.
Qed.

Lemma keeps_for_each {A : Type} (body : A -> M unit) (l : list A) :
  (forall a, keeps_doc_freq (body a)) -> keeps_doc_freq (for_each body l).
Proof.
  intros Hb. induction l as [|a l IH]; simpl.
  - intros e. reflexivity.
  - apply keeps_and_then; auto.
Qed.

Lemma keeps_vocab_seen word count :
  keeps_doc_freq (fun e => vocab_seen e word count).
Proof. intros e. unfold vocab_seen. now destruct (_vocab_final e). Qed.

Lemma keeps_finalize_vocab : keeps_doc_freq finalize_vocab.
Proof.
  intros e. unfold finalize_vocab.
  match goal with |- context [if ?b then _ else _] => destruct b end; reflexivity.
Qed.

Lemma keeps_scan_document text : keeps_doc_freq (fun e => scan_document e text).
Proof.
  intros e. unfold scan_document.
  destruct (_vocab_final e), (_docs_final e); reflexivity.
Qed.

Lemma keeps_finalize_docs : keeps_doc_freq finalize_docs.
Proof. intros e. reflexivity. Qed.

Lemma keeps_observe_question question : keeps_doc_freq (observe_question question).
Proof.
  intros e. unfold observe_question.
  destruct (tokenize e question) as [items x].
  assert (H : keeps_doc_freq (for_each vocab_seen_token items)).
  { apply keeps_for_each. intros [w|i] e0; simpl; [apply keeps_vocab_seen | reflexivity]. }
  specialize (H e).
  destruct (for_each vocab_seen_token items e) as [[u|y] e']; simpl in *; auto.
  now destruct x.
Qed.

Lemma doc_freq_set_row e row_id v : _doc_freq (set_row e row_id v) = _doc_freq e.
Proof. unfold set_row. now destruct (_doc_vectors e). Qed.

Lemma keeps_fill_rows qs : forall row_id, keeps_doc_freq (fill_rows row_id qs).
Proof.
  induction qs as [|q qs IH]; intros row_id e; simpl; auto.
  destruct (embed e q); simpl; auto.
  now rewrite IH, doc_freq_set_row.
Qed.

Lemma keeps_train qs ans : keeps_doc_freq (train qs ans).
Proof.
  unfold train.
  repeat (apply keeps_and_then; [|intros _]);
    try (intros e; reflexivity).
  - apply keeps_for_each, keeps_observe_question.
  - apply keeps_finalize_vocab.
  - apply keeps_for_each. intros a. apply keeps_scan_document.
  - intros e. now destruct (_total_docs e =? _).
  - intros e. apply keeps_fill_rows.
Qed.

Lemma keeps_load load_questions_and_answers fs :
  keeps_doc_freq (load load_questions_and_answers fs).
Proof.
  unfold load.
  repeat (apply keeps_and_then; [|intros _]); intros e.
  - destruct (load_questions_and_answers e fs) as [[qs ans]|x]; reflexivity.
  - destruct (read_dict fs _); reflexivity.
  - destruct (read_array fs _); reflexivity.
  - destruct (read_dict fs _); reflexivity.
  - destruct (_doc_vectors e); [|reflexivity].
    match goal with |- context [if ?b then _ else _] => destruct b end; reflexivity.
Qed.

Lemma reachable_no_doc_freq e : reachable e -> _doc_freq e = None.
Proof.
  induction 1 as [| e w c _ IH | e _ IH | e t _ IH | e _ IH | e qs ans _ IH | e lqa fs _ IH];
    [reflexivity | rewrite <- IH ..].
  - apply (keeps_vocab_seen w c e).
  - apply keeps_finalize_vocab.
  - apply (keeps_scan_document t e).
  - apply keeps_finalize_docs.
  - apply keeps_train.
  - apply keeps_load.
Qed.

(** ** Claims on the document scan, the lookup and the tokens *)

(** C1 (code evaluated at the failing input).  On the instance whose
    vocabulary is [{"a": 0, "<UNK>": 1}], scanning the document "a a"
    succeeds, adds one to the number of documents, and adds two, not
    one, to the counter of "a": the loop of [scan_document] counts
    every occurrence. *)
Theorem scan_document_counts_each_occurrence :
  let r := scan_document toy_a "a a"%string in
  _vocab toy_a = [("a"%string, 0); (kUNK, 1)] /\
  fst r = Ok tt /\
  _total_docs (snd r) = _total_docs toy_a + 1 /\
  fd_get (_doc_counts (snd r)) "a"%string = fd_get (_doc_counts toy_a) "a"%string + 2.
Proof. vm_compute. repeat split. Qed.

(** C2 (the code on every instance the class can build).  [inv_docfreq]
    never returns: it fails its assertion while the documents are not
    final and raises [AttributeError] afterwards, because no method
    assigns the attribute [_doc_freq] that it reads. *)
Theorem inv_docfreq_always_raises (e : engine) (word : Z) :
  reachable e ->
  inv_docfreq e word =
  Raise (if _docs_final e then AttributeError else AssertionError).
Proof.
  intros Hr. unfold inv_docfreq.
  rewrite (reachable_no_doc_freq e Hr).
  now destruct (_docs_final e).
Qed.

Lemma toy_a_docs_reachable : reachable toy_a_docs.
Proof.
  unfold toy_a_docs, toy_a.
  apply reach_finalize_docs, reach_scan_document, reach_finalize_vocab.
  apply (reach_vocab_seen (snd (vocab_seen toy "a" 1)) "a" 1).
  apply (reach_vocab_seen toy "a" 1).
  apply reach_init.
Qed.

Lemma inv_docfreq_always_raises_witness :
  inv_docfreq toy_a_docs 1 = Raise AttributeError.
Proof.
  exact (inv_docfreq_always_raises toy_a_docs 1 toy_a_docs_reachable).
Defined.

(** [finalize_docs] itself calls [inv_docfreq] for the first keys of the
    vocabulary, so it raises as soon as the vocabulary has a key. *)
Lemma finalize_docs_raises (e : engine) :
  _doc_freq e = None -> _vocab e <> [] ->
  fst (finalize_docs e) = Raise AttributeError.
Proof.
  intros Hf Hv. unfold finalize_docs. simpl.
  destruct (_vocab e) as [|[w i] d] eqn:E; [contradiction|].
  simpl. rewrite E. simpl. rewrite String.eqb_refl.
  unfold inv_docfreq. simpl. now rewrite Hf.
Qed.

(** C5 (code evaluated at the failing input).  When the string
    "<UNK>" itself was seen often enough to be kept, [finalize_vocab]
    succeeds and overwrites its id with the size of the mapping; the id
    of the unknown token is then [_vocab_size] and [vocab_lookup] fails
    its own range assertion on every word that is not in the vocabulary. *)
Theorem vocab_lookup_fails_after_unk_seen :
  fst (finalize_vocab (observe [kUNK; kUNK] toy)) = Ok tt /\
  _vocab_final toy_unk = true /\
  _vocab toy_unk = [(kUNK, 1)] /\
  _vocab_size toy_unk = 1 /\
  vocab_lookup toy_unk "cat"%string = Raise AssertionError /\
  vocab_lookup toy_unk kUNK = Raise AssertionError.
Proof. vm_compute. repeat split. Qed.

(** C10 (code evaluated at the failing input).  On the same instance
    the vocabulary is final, the tokenizer finds two raw tokens, and
    [tokenize] yields nothing: the lookup of the first token raises. *)
Theorem tokenize_fails_after_unk_seen :
  _vocab_final toy_unk = true /\
  _tokenizer toy_unk "the cat"%string = ["the"; "cat"]%string /\
  tokenize toy_unk "the cat"%string = ([], Some AssertionError).
Proof. vm_compute. repeat split. Qed.

(** Before the vocabulary is final [tokenize] yields the normalized
    string of every raw token. *)
Lemma tokenize_before_final (e : engine) (sent : string) :
  _vocab_final e = false ->
  tokenize e sent =
  (map (fun ii => TStr (_normalizer e ii)) (_tokenizer e sent), None).
Proof.
  intros Hv. unfold tokenize.
  induction (_tokenizer e sent) as [|ii raw IH]; simpl; auto.
  now rewrite Hv, IH.
Qed.

(** ** Inverse document frequency *)

Lemma ln_10_pos : (0 < ln 10)%R.
Proof. rewrite <- ln_1. apply ln_increasing; lra. Qed.

Lemma log10_le (x y : R) : (0 < x)%R -> (x <= y)%R -> (log10 x <= log10 y)%R.
Proof.
  intros Hx Hxy. unfold log10, Rdiv.
  apply Rmult_le_compat_r.
  - left. apply Rinv_0_lt_compat, ln_10_pos.
  - destruct Hxy as [Hlt | ->]; [left; now apply ln_increasing | right; reflexivity].
Qed.

Lemma log10_pos (x : R) : (1 < x)%R -> (0 < log10 x)%R.
Proof.
  intros Hx. unfold log10. apply Rdiv_lt_0_compat; [|apply ln_10_pos].
  rewrite <- ln_1. apply ln_increasing; lra.
Qed.

Lemma log10_neg (x : R) : (0 < x)%R -> (x < 1)%R -> (log10 x < 0)%R.
Proof.
  intros H0 H1. unfold log10, Rdiv.
  assert (Hl : (ln x < 0)%R) by (rewrite <- ln_1; now apply ln_increasing).
  assert (Hi : (0 < / ln 10)%R) by apply Rinv_0_lt_compat, ln_10_pos.
  nra.
Qed.

(** With at least one document and a positive document frequency the
    formula is evaluated without an exception. *)
Lemma inv_df_positive (total_docs doc_freq : Z) :
  1 <= total_docs -> 1 <= doc_freq ->
  inv_df total_docs doc_freq = Ok (log10 (IZR total_docs / IZR (1 + doc_freq))).
Proof.
  intros Hn Hd. unfold inv_df.
  destruct (Z.eqb_spec doc_freq 0); [lia|].
  destruct (Z.eqb_spec (1 + doc_freq) 0); [lia|].
  destruct (Z.leb_spec (total_docs * (1 + doc_freq)) 0); [nia|].
  reflexivity.
Qed.

Lemma ratio_pos (n d : Z) : 1 <= n -> 1 <= d -> (0 < IZR n / IZR (1 + d))%R.
Proof.
  intros Hn Hd. apply Rdiv_lt_0_compat; apply IZR_lt; lia.
Qed.

Lemma ratio_antitone (n d1 d2 : Z) :
  1 <= n -> 1 <= d1 -> d1 <= d2 ->
  (IZR n / IZR (1 + d2) <= IZR n / IZR (1 + d1))%R.
Proof.
  intros Hn H1 H2. unfold Rdiv.
  apply Rmult_le_compat_l.
  - apply IZR_le. lia.
  - apply Rinv_le_contravar; [apply IZR_lt; lia | apply IZR_le; lia].
Qed.

(** C7 (amended).  For a fixed number of documents, at least one, the
    inverse document frequency does not increase when the document
    frequency grows over the positive frequencies, and it is exactly 0
    at frequency 0. *)
Theorem inv_df_antitone_on_positive (total_docs d1 d2 : Z) :
  1 <= total_docs -> 1 <= d1 -> d1 <= d2 ->
  inv_df total_docs 0 = Ok 0%R /\
  exists x1 x2 : R,
    inv_df total_docs d1 = Ok x1 /\
    inv_df total_docs d2 = Ok x2 /\
    (x2 <= x1)%R.
Proof.
  intros Hn H1 H2. split; [reflexivity|].
  exists (log10 (IZR total_docs / IZR (1 + d1))),
         (log10 (IZR total_docs / IZR (1 + d2))).
  repeat split.
  - apply inv_df_positive; lia.
  - apply inv_df_positive; lia.
  - apply log10_le.
    + apply ratio_pos; lia.
    + now apply ratio_antitone.
Qed.

Lemma inv_df_antitone_on_positive_witness :
  inv_df 10 0 = Ok 0%R /\
  exists x1 x2 : R,
    inv_df 10 1 = Ok x1 /\ inv_df 10 4 = Ok x2 /\ (x2 <= x1)%R.
Proof.
  apply (inv_df_antitone_on_positive 10 1 4); lia.
Defined.

(** C7 as stated fails between frequency 0 and frequency 1: with ten
    documents the value rises from 0 to [log10 5]. *)
Lemma inv_df_rises_from_zero :
  exists x0 x1 : R,
    inv_df 10 0 = Ok x0 /\ inv_df 10 1 = Ok x1 /\ (x0 < x1)%R.
Proof.
  exists 0%R, (log10 (IZR 10 / IZR (1 + 1))).
  repeat split.
  apply log10_pos.
  replace (IZR 10 / IZR (1 + 1))%R with 5%R by (simpl; lra).
  lra.
Qed.

(** ** Sorting the counts *)

Lemma insert_desc_perm (x : string * Z) (l : list (string * Z)) :
  Permutation (insert_desc x l) (x :: l).
Proof.
  induction l as [|y l IH]; simpl; auto.
  destruct (snd y <=? snd x); auto.
  rewrite IH. apply perm_swap.
Qed.

Lemma sorted_desc_perm (l : list (string * Z)) : Permutation (sorted_desc l) l.
Proof.
  induction l as [|x l IH]; simpl; auto.
  rewrite insert_desc_perm. now constructor.
Qed.

Lemma insert_desc_sorted (x : string * Z) (l : list (string * Z)) :
  StronglySorted by_count_desc l -> StronglySorted by_count_desc (insert_desc x l).
Proof.
  induction 1 as [|y l Hs IH Hy]; simpl.
  - repeat constructor.
  - destruct (Z.leb_spec (snd y) (snd x)) as [Hle|Hgt].
    + constructor; [now constructor|].
      constructor; [exact Hle|].
      eapply Forall_impl; [|exact Hy]. unfold by_count_desc. intros; lia.
    + constructor; auto.
      rewrite (Forall_forall (by_count_desc y)). intros z Hz.
      apply (Permutation_in _ (insert_desc_perm x l)) in Hz.
      destruct Hz as [<-|Hz].
      * unfold by_count_desc. lia.
      * rewrite Forall_forall in Hy. auto.
Qed.

Lemma sorted_desc_sorted (l : list (string * Z)) :
  StronglySorted by_count_desc (sorted_desc l).
Proof.
  induction l; simpl; [constructor | now apply insert_desc_sorted].
Qed.

(** Stability: the items of one count stay in their original order. *)
Lemma insert_desc_stable (c : Z) (x : string * Z) (l : list (string * Z)) :
  with_count c (insert_desc x l) = with_count c (x :: l).
Proof.
  unfold with_count. induction l as [|y l IH]; simpl; auto.
  destruct (Z.leb_spec (snd y) (snd x)) as [Hle|Hgt]; simpl; auto.
  rewrite IH. simpl.
  destruct (Z.eqb_spec (snd x) c), (Z.eqb_spec (snd y) c); auto. lia.
Qed.

Lemma sorted_desc_stable (c : Z) (l : list (string * Z)) :
  with_count c (sorted_desc l) = with_count c l.
Proof.
  induction l as [|x l IH]; simpl; auto.
  rewrite insert_desc_stable. unfold with_count in *. simpl. now rewrite IH.
Qed.

Lemma sorted_firstn (n : nat) (l : list (string * Z)) :
  StronglySorted by_count_desc l -> StronglySorted by_count_desc (firstn n l).
Proof.
  intros H. revert n. induction H as [|x l Hs IH Hx]; intros [|n]; simpl;
    try constructor; auto.
  rewrite Forall_forall in *. intros z Hz. apply Hx.
  rewrite <- (firstn_skipn n l). apply in_or_app. now left.
Qed.

Lemma NoDup_firstn {A : Type} (n : nat) (l : list A) : NoDup l -> NoDup (firstn n l).
Proof.
  intros H. rewrite <- (firstn_skipn n l) in H. now apply NoDup_app_remove_r in H.
Qed.

Lemma slice_to_firstn {A : Type} (l : list A) (n : Z) :
  exists m, slice_to l n = firstn m l.
Proof. unfold slice_to. destruct (0 <=? n); eexists; reflexivity. Qed.

Lemma slice_to_length {A : Type} (l : list A) (n : Z) :
  0 <= n -> Z.of_nat (List.length (slice_to l n)) <= n.
Proof.
  intros Hn. unfold slice_to. destruct (Z.leb_spec 0 n); [|lia].
  rewrite length_firstn. lia.
Qed.

Lemma filter_below_cutoff (cutoff : Z) (x : string * Z) (l : list (string * Z)) :
  snd x < cutoff -> Forall (by_count_desc x) l -> filter (count_ge cutoff) l = [].
Proof.
  intros Hx Hl. induction Hl as [|y l Hy _ IH]; simpl; auto.
  unfold count_ge at 1. unfold by_count_desc in Hy.
  destruct (Z.leb_spec cutoff (snd y)); [lia | exact IH].
Qed.

(** In a list sorted by descending count the items that reach the
    cutoff are a prefix. *)
Lemma filter_sorted_prefix (cutoff : Z) (l : list (string * Z)) :
  StronglySorted by_count_desc l ->
  filter (count_ge cutoff) l =
  firstn (List.length (filter (count_ge cutoff) l)) l.
Proof.
  induction 1 as [|x l Hs IH Hx]; simpl; auto.
  destruct (count_ge cutoff x) eqn:E; simpl.
  - f_equal. exact IH.
  - rewrite (filter_below_cutoff cutoff x l); auto.
    unfold count_ge in E. apply Z.leb_gt in E. exact E.
Qed.

(** ** The vocabulary built by [finalize_vocab] *)

Lemma keys_number_ids (i : Z) (ws : list string) : OD.keys (number_ids i ws) = ws.
Proof. revert i. induction ws as [|w ws IH]; intros i; simpl; [|rewrite IH]; auto. Qed.

Lemma length_number_ids (i : Z) (ws : list string) :
  List.length (number_ids i ws) = List.length ws.
Proof. revert i. induction ws as [|w ws IH]; intros i; simpl; [|rewrite IH]; auto. Qed.

(** The ids handed out are [i], [i + 1], ... without a gap. *)
Lemma nth_error_number_ids (ws : list string) :
  forall (i : Z) (n : nat) (w : string),
    nth_error ws n = Some w ->
    nth_error (number_ids i ws) n = Some (w, i + Z.of_nat n).
Proof.
  induction ws as [|w0 ws IH]; intros i [|n] w H; simpl in *; try discriminate.
  - injection H as <-. f_equal. f_equal. lia.
  - rewrite (IH (i + 1) n w H). f_equal. f_equal. lia.
Qed.

Lemma in_number_ids (ws : list string) :
  forall (i : Z) (w : string) (j : Z),
    In (w, j) (number_ids i ws) -> i <= j < i + Z.of_nat (List.length ws).
Proof.
  induction ws as [|w0 ws IH]; intros i w j H; simpl in *; [contradiction|].
  destruct H as [H|H].
  - injection H as _ <-. lia.
  - apply IH in H. lia.
Qed.

(** The dictionary comprehension over a list sorted by descending
    count: the enumeration index of a kept item is its rank among the
    kept items, because they come first. *)
Lemma comprehension_fold (cutoff : Z) (l : list (string * Z)) :
  forall (i : Z) (d : OD.t Z),
    StronglySorted by_count_desc l ->
    NoDup (OD.keys l) ->
    (forall w, In w (OD.keys l) -> ~ In w (OD.keys d)) ->
    fold_left
      (fun d '(i, (word, count)) => if cutoff <=? count then OD.set d word i else d)
      (enumerate_from i l) d =
    d ++ number_ids i (OD.keys (filter (count_ge cutoff) l)).
Proof.
  induction l as [|[w c] l IH]; intros i d Hs Hnd Hfresh; simpl.
  - now rewrite app_nil_r.
  - inversion Hs as [|? ? Hs' Hx]; subst.
    simpl in Hnd. inversion Hnd as [|? ? Hw Hnd']; subst.
    unfold count_ge at 1. simpl.
    destruct (Z.leb_spec cutoff c) as [Hle|Hgt].
    + rewrite od_set_fresh by (apply Hfresh; now left).
      rewrite IH; auto.
      * simpl. now rewrite <- app_assoc.
      * intros w' Hw' Hin. unfold OD.keys in Hin. rewrite map_app in Hin.
        apply in_app_or in Hin. destruct Hin as [Hin|[<-|[]]].
        -- apply (Hfresh w'); [now right | exact Hin].
        -- contradiction.
    + rewrite IH; auto.
      * rewrite (filter_below_cutoff cutoff (w, c) l); auto.
      * intros w' Hw'. apply Hfresh. now right.
Qed.

Lemma vocab_comprehension_sorted (cutoff : Z) (l : list (string * Z)) :
  StronglySorted by_count_desc l -> NoDup (OD.keys l) ->
  vocab_comprehension l cutoff =
  number_ids 0 (OD.keys (filter (count_ge cutoff) l)).
Proof.
  intros Hs Hnd. unfold vocab_comprehension, enumerate.
  rewrite (comprehension_fold cutoff l 0 []); auto.
Qed.

Lemma slice_sorted_counts (e : engine) :
  NoDup (OD.keys (_doc_counts e)) ->
  let sl := slice_to (sorted_desc (_doc_counts e)) (_max_vocab_size e) in
  StronglySorted by_count_desc sl /\ NoDup (OD.keys sl).
Proof.
  intros Hnd sl. subst sl.
  destruct (slice_to_firstn (sorted_desc (_doc_counts e)) (_max_vocab_size e)) as [m ->].
  split.
  - apply sorted_firstn, sorted_desc_sorted.
  - unfold OD.keys. rewrite <- firstn_map. apply NoDup_firstn.
    eapply Permutation_NoDup; [|exact Hnd].
    apply Permutation_map, Permutation_sym, sorted_desc_perm.
Qed.

(** The mapping and the size [finalize_vocab] stores, when the string of
    the unknown token is not one of the kept tokens. *)
Lemma finalize_vocab_mapping (e : engine) :
  NoDup (OD.keys (_doc_counts e)) ->
  ~ In kUNK (OD.keys (kept_tokens e)) ->
  let k := Z.of_nat (List.length (kept_tokens e)) in
  _vocab (snd (finalize_vocab e)) =
    number_ids 0 (OD.keys (kept_tokens e)) ++ [(kUNK, k)] /\
  _vocab_size (snd (finalize_vocab e)) = k + 1.
Proof.
  intros Hnd Hunk k.
  destruct (slice_sorted_counts e Hnd) as [Hs Hk].
  assert (Hv0 : vocab_comprehension
                  (slice_to (sorted_desc (_doc_counts e)) (_max_vocab_size e))
                  (_unk_cutoff e) = number_ids 0 (OD.keys (kept_tokens e))).
  { now apply vocab_comprehension_sorted. }
  assert (Hlen : OD.len (number_ids 0 (OD.keys (kept_tokens e))) = k).
  { unfold OD.len, OD.keys. now rewrite length_number_ids, length_map. }
  assert (Hv1 : OD.set (number_ids 0 (OD.keys (kept_tokens e))) kUNK k =
                number_ids 0 (OD.keys (kept_tokens e)) ++ [(kUNK, k)]).
  { apply od_set_fresh. now rewrite keys_number_ids. }
  unfold finalize_vocab. rewrite Hv0, Hlen, Hv1.
  assert (Hsz : OD.len (number_ids 0 (OD.keys (kept_tokens e)) ++ [(kUNK, k)]) = k + 1).
  { unfold OD.len in *. rewrite length_app. simpl. lia. }
  match goal with |- context [if ?b then _ else _] => destruct b end;
    simpl; split; auto.
Qed.

(** Whether [finalize_vocab] returns is decided by the size it stored. *)
Lemma finalize_vocab_outcome (e : engine) :
  let r := finalize_vocab e in
  (fst r = Ok tt /\ _vocab_final (snd r) = true /\
   _vocab_size (snd r) < _max_vocab_size e) \/
  (fst r = Raise AssertionError /\ _vocab_final (snd r) = _vocab_final e /\
   _max_vocab_size e <= _vocab_size (snd r)).
Proof.
  unfold finalize_vocab.
  match goal with |- context [if ?a <? ?b then _ else _] =>
    destruct (Z.ltb_spec a b) as [H|H] end; simpl in *; [left | right]; auto.
Qed.

Lemma kept_tokens_prefix (e : engine) :
  kept_tokens e =
  firstn (List.length (kept_tokens e)) (sorted_desc (_doc_counts e)).
Proof.
  unfold kept_tokens.
  destruct (slice_to_firstn (sorted_desc (_doc_counts e)) (_max_vocab_size e)) as [m Hm].
  rewrite Hm.
  rewrite (filter_sorted_prefix (_unk_cutoff e)) at 1
    by apply sorted_firstn, sorted_desc_sorted.
  rewrite firstn_firstn. f_equal.
  apply Nat.min_l.
  etransitivity; [apply filter_length_le|]. apply firstn_le_length.
Qed.

(** What [finalize_vocab] computes.  It sorts the observed tokens by
    descending count, ties in first-seen order; among the first
    [_max_vocab_size] of them it keeps those whose count reaches the
    cutoff, which are a prefix of the sorted order; when the string of
    the unknown token is not one of them it gives them the ids 0..k-1 in
    that order and the unknown token the id k, for a size of k + 1; it
    raises exactly when the size it stored is not below
    [_max_vocab_size], so a successful call kept at most
    [_max_vocab_size - 2] tokens. *)
Theorem finalize_vocab_spec (e : engine) :
  NoDup (OD.keys (_doc_counts e)) ->
  let s := sorted_desc (_doc_counts e) in
  let kept := kept_tokens e in
  let k := Z.of_nat (List.length kept) in
  let r := finalize_vocab e in
  (Permutation s (_doc_counts e) /\
   StronglySorted by_count_desc s /\
   forall c, with_count c s = with_count c (_doc_counts e)) /\
  (kept = firstn (List.length kept) s /\
   Forall (fun p => _unk_cutoff e <= snd p) kept /\
   (0 <= _max_vocab_size e -> k <= _max_vocab_size e)) /\
  (~ In kUNK (OD.keys kept) ->
   _vocab (snd r) = number_ids 0 (OD.keys kept) ++ [(kUNK, k)] /\
   _vocab_size (snd r) = k + 1 /\
   (fst r = Ok tt -> k <= _max_vocab_size e - 2)) /\
  ((fst r = Ok tt /\ _vocab_final (snd r) = true /\
    _vocab_size (snd r) < _max_vocab_size e) \/
   (fst r = Raise AssertionError /\ _vocab_final (snd r) = _vocab_final e /\
    _max_vocab_size e <= _vocab_size (snd r))).
Proof.
  intros Hnd s kept k r.
  split; [|split; [|split]].
  - split; [apply sorted_desc_perm|].
    split; [apply sorted_desc_sorted | intros c; apply sorted_desc_stable].
  - split; [apply kept_tokens_prefix|]. split.
    + apply Forall_forall. intros p Hp. unfold kept, kept_tokens in Hp.
      apply filter_In in Hp. destruct Hp as [_ Hp].
      unfold count_ge in Hp. now apply Z.leb_le.
    + intros Hmax. subst k kept. unfold kept_tokens.
      pose proof (slice_to_length (sorted_desc (_doc_counts e)) _ Hmax) as Hl.
      pose proof (filter_length_le (count_ge (_unk_cutoff e))
                    (slice_to (sorted_desc (_doc_counts e)) (_max_vocab_size e))).
      lia.
  - intros Hunk.
    destruct (finalize_vocab_mapping e Hnd Hunk) as [Hv Hsz].
    repeat split; auto.
    intros Hok. destruct (finalize_vocab_outcome e) as [(_ & _ & Hlt)|(Hr & _)].
    + subst r k kept. lia.
    + subst r. congruence.
  - apply finalize_vocab_outcome.
Qed.

Lemma toy_seen_keys_NoDup : NoDup (OD.keys (_doc_counts toy_seen)).
Proof.
  vm_compute. repeat constructor; simpl; intuition discriminate.
Qed.

Lemma finalize_vocab_spec_witness :
  let e := toy_seen in
  let s := sorted_desc (_doc_counts e) in
  let kept := kept_tokens e in
  let k := Z.of_nat (List.length kept) in
  let r := finalize_vocab e in
  (Permutation s (_doc_counts e) /\
   StronglySorted by_count_desc s /\
   forall c, with_count c s = with_count c (_doc_counts e)) /\
  (kept = firstn (List.length kept) s /\
   Forall (fun p => _unk_cutoff e <= snd p) kept /\
   (0 <= _max_vocab_size e -> k <= _max_vocab_size e)) /\
  (~ In kUNK (OD.keys kept) ->
   _vocab (snd r) = number_ids 0 (OD.keys kept) ++ [(kUNK, k)] /\
   _vocab_size (snd r) = k + 1 /\
   (fst r = Ok tt -> k <= _max_vocab_size e - 2)) /\
  ((fst r = Ok tt /\ _vocab_final (snd r) = true /\
    _vocab_size (snd r) < _max_vocab_size e) \/
   (fst r = Raise AssertionError /\ _vocab_final (snd r) = _vocab_final e /\
    _max_vocab_size e <= _vocab_size (snd r))).
Proof.
  exact (finalize_vocab_spec toy_seen toy_seen_keys_NoDup).
Defined.

(** What the call computes on that instance. *)
Example finalize_vocab_toy_seen :
  kept_tokens toy_seen = [("a", 2); ("b", 2); ("c", 2)]%string /\
  fst (finalize_vocab toy_seen) = Ok tt /\
  _vocab (snd (finalize_vocab toy_seen)) =
    [("a"%string, 0); ("b"%string, 1); ("c"%string, 2); (kUNK, 3)].
Proof. vm_compute. repeat split. Qed.

(** A call that raises: with [max_vocab_size = 2] and two words that
    reach the cutoff, the mapping left behind holds both of them and
    the unknown token, and the vocabulary is not marked final. *)
Example finalize_vocab_keeps_max_tokens :
  let r := finalize_vocab tiny_seen in
  _max_vocab_size tiny_seen = 2 /\
  kept_tokens tiny_seen = [("a", 1); ("b", 1)]%string /\
  _vocab (snd r) = [("a"%string, 0); ("b"%string, 1); (kUNK, 2)] /\
  fst r = Raise AssertionError /\
  _max_vocab_size tiny_seen - 1 < Z.of_nat (List.length (kept_tokens tiny_seen)).
Proof. vm_compute. repeat split. Qed.

(** ** Similarity search *)

Lemma argmax_from_spec (l : list R) :
  forall (pre : list R) (best_i : nat) (best : R),
    (best_i < List.length pre)%nat ->
    nth best_i pre 0%R = best ->
    (forall j, (j < List.length pre)%nat -> (nth j pre 0 <= best)%R) ->
    (forall j, (j < best_i)%nat -> (nth j pre 0 < best)%R) ->
    is_first_max (pre ++ l) (argmax_from best_i best (List.length pre) l).
Proof.
  induction l as [|x l IH]; intros pre bi b Hbi Hb Hle Hlt; simpl.
  - rewrite app_nil_r. unfold is_first_max. rewrite Hb. auto.
  - assert (Hlen : List.length (pre ++ [x]) = S (List.length pre))
      by (rewrite length_app; simpl; lia).
    replace (pre ++ x :: l) with ((pre ++ [x]) ++ l)
      by (rewrite <- app_assoc; reflexivity).
    rewrite <- Hlen.
    destruct (Rlt_dec b x) as [Hx|Hx].
    + apply IH.
      * lia.
      * rewrite app_nth2 by lia. now rewrite Nat.sub_diag.
      * intros j Hj. rewrite Hlen in Hj.
        destruct (Nat.eq_dec j (List.length pre)) as [->|Hne].
        -- rewrite app_nth2 by lia. rewrite Nat.sub_diag. simpl. lra.
        -- rewrite app_nth1 by lia. specialize (Hle j ltac:(lia)). lra.
      * intros j Hj. rewrite app_nth1 by lia. specialize (Hle j Hj). lra.
    + apply IH.
      * lia.
      * rewrite app_nth1 by lia. exact Hb.
      * intros j Hj. rewrite Hlen in Hj.
        destruct (Nat.eq_dec j (List.length pre)) as [->|Hne].
        -- rewrite app_nth2 by lia. rewrite Nat.sub_diag. simpl. lra.
        -- rewrite app_nth1 by lia. apply Hle. lia.
      * intros j Hj. rewrite app_nth1 by lia. now apply Hlt.
Qed.

(** [argmax] refuses the empty array and otherwise returns the first
    index that holds the maximum. *)
Lemma argmax_spec (l : list R) :
  match l with
  | [] => argmax l = Raise ValueError
  | _ :: _ => exists i, argmax l = Ok i /\ is_first_max l i
  end.
Proof.
  destruct l as [|x l]; [reflexivity|].
  eexists. split; [reflexivity|].
  apply (argmax_from_spec l [x] 0%nat x); simpl; auto.
  - intros [|j] Hj; [lra | lia].
  - intros j Hj. lia.
Qed.

(** In exact arithmetic the search of the section is the search above. *)
Lemma find_best_match_exact (q : vector) (Y : option ndarray2) :
  find_best_match_with exact_scores q Y = find_best_match q Y.
Proof. reflexivity. Qed.

Lemma call_exact (e : engine) (question : string) (n : Z) :
  call_with exact_scores e question n = call e question n.
Proof. reflexivity. Qed.

(** C8.  The search of [__call__], on whatever scores the library
    computes, one for each row.  Against a matrix without rows it
    raises (the [ValueError] of the library's validation), and so does
    the whole query, whatever it asks; against a matrix with rows and
    the query's number of columns it returns the index of a row whose
    score is maximal, the lowest such index, with that score.  With no
    matrix at all the library compares the query with itself and the
    search answers index 0. *)
Theorem similarity_search_spec (scores : vector -> list vector -> list R)
    (q : vector) (m : ndarray2) :
  (forall v rows, List.length (scores v rows) = List.length rows) ->
  (shape0 m = 0 ->
   find_best_match_with scores q (Some m) = Raise ValueError /\
   forall e question n,
     _doc_vectors e = Some m -> exists x, call_with scores e question n = Raise x) /\
  (List.length q <> 0%nat -> shape0 m <> 0 ->
   shape1 m = Z.of_nat (List.length q) ->
   exists best : nat,
     find_best_match_with scores q (Some m) =
       Ok (best, nth best (scores q (mrows m)) 0%R) /\
     (best < List.length (mrows m))%nat /\
     (forall j, (j < List.length (mrows m))%nat ->
        (nth j (scores q (mrows m)) 0 <= nth best (scores q (mrows m)) 0)%R) /\
     (forall j, (j < best)%nat ->
        (nth j (scores q (mrows m)) 0 < nth best (scores q (mrows m)) 0)%R)) /\
  (List.length q <> 0%nat ->
   find_best_match_with scores q None = Ok (0%nat, nth 0 (scores q [q]) 0%R)).
Proof.
  intros Hlen. split; [|split].
  - intros H0.
    assert (Hf : forall v, find_best_match_with scores v (Some m) = Raise ValueError).
    { intros v. unfold find_best_match_with, cosine_similarity_row_with.
      destruct (List.length v =? 0)%nat; [reflexivity|].
      now rewrite H0. }
    split; [apply Hf|].
    intros e question n He. unfold call_with. rewrite He.
    destruct (n =? 1); [|eauto].
    destruct (embed e question) as [v|x]; simpl; [|eauto].
    rewrite Hf. simpl. eauto.
  - intros Hq Hrows Hcols.
    unfold find_best_match_with, cosine_similarity_row_with.
    destruct (Nat.eqb_spec (List.length q) 0); [contradiction|].
    destruct (Z.eqb_spec (shape0 m) 0); [contradiction|].
    rewrite Hcols, Z.eqb_refl. simpl.
    pose proof (argmax_spec (scores q (mrows m))) as Ha.
    pose proof (Hlen q (mrows m)) as Hl.
    destruct (scores q (mrows m)) as [|s sims] eqn:E.
    + exfalso. apply Hrows. unfold shape0. simpl in Hl. now rewrite <- Hl.
    + destruct Ha as (best & Hbest & Hlt & Hmax & Hfirst).
      rewrite Hl in *.
      exists best. rewrite Hbest. simpl.
      repeat split; auto.
  - intros Hq.
    unfold find_best_match_with, cosine_similarity_row_with.
    destruct (Nat.eqb_spec (List.length q) 0); [contradiction|].
    pose proof (Hlen q [q]) as Hl.
    destruct (scores q [q]) as [|s [|s' sims]]; try discriminate.
    reflexivity.
Qed.

(** Two rows with the same score: the search returns the first. *)
Lemma similarity_search_spec_witness :
  find_best_match_with exact_scores [1%R]
    (Some {| shape1 := 1; mrows := [[1%R]; [1%R]] |}) =
  Ok (0%nat, cosine [1%R] [1%R]).
Proof.
  destruct (similarity_search_spec exact_scores [1%R]
              {| shape1 := 1; mrows := [[1%R]; [1%R]] |})
    as (_ & H & _).
  { intros v rows. apply length_map. }
  destruct H as (best & Hb & Hlt & _ & Hfirst).
  - discriminate.
  - discriminate.
  - reflexivity.
  - rewrite Hb. destruct best as [|[|n]].
    + reflexivity.
    + exfalso. specialize (Hfirst 0%nat (Nat.lt_0_succ 0)).
      simpl in Hfirst. exact (Rlt_irrefl _ Hfirst).
    + exfalso. simpl in Hlt. lia.
Defined.

(** ** [FreqDist] *)

Lemma fd_fold_get (l : list string) :
  forall (d : OD.t Z) (w : string),
    fd_get (fold_left (fun d w => fd_add d w 1) l d) w = fd_get d w + count_word w l.
Proof.
  induction l as [|t l IH]; intros d w; simpl.
  - lia.
  - rewrite IH, fd_get_fd_add. destruct (String.eqb t w) eqn:E; [|lia].
    apply String.eqb_eq in E. subst. lia.
Qed.

Lemma fd_fold_keys_in (l : list string) :
  forall (d : OD.t Z) (w : string),
    In w (OD.keys (fold_left (fun d w => fd_add d w 1) l d)) <->
    In w (OD.keys d) \/ In w l.
Proof.
  induction l as [|t l IH]; intros d w; simpl.
  - tauto.
  - rewrite IH. unfold fd_add. rewrite od_keys_set.
    destruct (OD.mem d t) eqn:E.
    + apply od_mem_in in E. split; [tauto|].
      intros [H|[<-|H]]; auto.
    + rewrite in_app_iff. simpl. tauto.
Qed.

Lemma fd_fold_keys_NoDup (l : list string) :
  forall d : OD.t Z,
    NoDup (OD.keys d) ->
    NoDup (OD.keys (fold_left (fun d w => fd_add d w 1) l d)).
Proof.
  induction l as [|t l IH]; intros d H; simpl; auto.
  apply IH. unfold fd_add. now apply od_keys_set_NoDup.
Qed.

Lemma fd_N_set (d : OD.t Z) (k : string) (v : Z) :
  fd_N (OD.set d k v) = fd_N d - fd_get d k + v.
Proof.
  unfold fd_N, fd_get. induction d as [|[k' v'] d IH]; simpl.
  - lia.
  - destruct (String.eqb k' k); simpl; lia.
Qed.

Lemma fd_fold_N (l : list string) :
  forall d : OD.t Z,
    fd_N (fold_left (fun d w => fd_add d w 1) l d) = fd_N d + Z.of_nat (List.length l).
Proof.
  induction l as [|t l IH]; intros d.
  - simpl. lia.
  - cbn [fold_left List.length]. rewrite IH. unfold fd_add. rewrite fd_N_set. lia.
Qed.

Lemma count_word_nonneg (w : string) (l : list string) : 0 <= count_word w l.
Proof. induction l as [|t l IH]; simpl; [|destruct (String.eqb t w)]; lia. Qed.

Lemma count_word_pos (w : string) (l : list string) : In w l -> 1 <= count_word w l.
Proof.
  induction l as [|t l IH]; simpl; [tauto|].
  pose proof (count_word_nonneg w l).
  intros [->|H1]; [rewrite String.eqb_refl; lia|].
  specialize (IH H1). destruct (String.eqb t w); lia.
Qed.

(** [FreqDist(l).freq(w)] is the term frequency of [w] in [l]. *)
Lemma fd_freq_FreqDist (l : list string) (w : string) :
  l <> [] -> fd_freq (FreqDist l) w = term_frequency l w.
Proof.
  intros Hl. unfold fd_freq, FreqDist, term_frequency.
  rewrite fd_fold_N, fd_fold_get.
  change (fd_N []) with 0. change (fd_get [] w) with 0.
  destruct l as [|t l]; [contradiction|].
  destruct (Z.eqb_spec (0 + Z.of_nat (List.length (t :: l))) 0) as [H|H].
  - simpl in H. lia.
  - reflexivity.
Qed.

Lemma term_frequency_nonneg (l : list string) (w : string) :
  (0 <= term_frequency l w)%R.
Proof.
  unfold term_frequency. destruct l as [|t l].
  - simpl. unfold Rdiv. rewrite Rmult_0_l. lra.
  - apply Rmult_le_pos.
    + apply IZR_le, count_word_nonneg.
    + left. apply Rinv_0_lt_compat, IZR_lt. simpl. lia.
Qed.

Lemma fd_freq_nonneg (l : list string) (w : string) :
  (0 <= fd_freq (FreqDist l) w)%R.
Proof.
  destruct l as [|t l].
  - unfold fd_freq. simpl. lra.
  - rewrite fd_freq_FreqDist by discriminate. apply term_frequency_nonneg.
Qed.

(** ** Arrays *)

Lemma length_vset (v : vector) (i : nat) (x : R) :
  List.length (vset v i x) = List.length v.
Proof.
  revert i. induction v as [|y v IH]; intros [|i]; simpl; auto.
Qed.

Lemma nth_vset_eq (v : vector) (i : nat) (x : R) :
  (i < List.length v)%nat -> nth i (vset v i x) 0%R = x.
Proof.
  revert i. induction v as [|y v IH]; intros [|i] H; simpl in *; try lia; auto.
  apply IH. lia.
Qed.

Lemma nth_vset_neq (v : vector) (i j : nat) (x : R) :
  i <> j -> nth j (vset v i x) 0%R = nth j v 0%R.
Proof.
  revert i j. induction v as [|y v IH]; intros [|i] [|j] H; simpl; auto; try lia.
Qed.

Lemma nth_zeros (n j : nat) : nth j (zeros n) 0%R = 0%R.
Proof.
  unfold zeros. revert j. induction n as [|n IH]; intros [|j]; simpl; auto.
Qed.

Lemma length_zeros (n : nat) : List.length (zeros n) = n.
Proof. apply repeat_length. Qed.

(** ** The embedder *)

Lemma vocab_lookup_range (e : engine) (w : string) (i : Z) :
  vocab_lookup e w = Ok i -> 0 <= i < _vocab_size e.
Proof.
  unfold vocab_lookup. destruct (_vocab_final e); [|discriminate].
  destruct (OD.get (_vocab e) w) as [j|]; simpl.
  - destruct (Z.leb_spec 0 j), (Z.ltb_spec j (_vocab_size e)); simpl;
      try discriminate. intros Heq. injection Heq as <-. lia.
  - destruct (OD.get (_vocab e) kUNK) as [j|]; simpl; [|discriminate].
    destruct (Z.leb_spec 0 j), (Z.ltb_spec j (_vocab_size e)); simpl;
      try discriminate. intros Heq. injection Heq as <-. lia.
Qed.

Lemma vocab_lookup_known (e : engine) (w : string) (i : Z) :
  _vocab_final e = true -> OD.get (_vocab e) w = Some i ->
  0 <= i < _vocab_size e -> vocab_lookup e w = Ok i.
Proof.
  intros Hf Hg Hr. unfold vocab_lookup. rewrite Hf, Hg. simpl.
  destruct (Z.leb_spec 0 i), (Z.ltb_spec i (_vocab_size e)); simpl; auto; lia.
Qed.

Lemma inv_docfreq_ready (e : engine) (table : list (Z * Z)) (i : Z) :
  statistics_ready e table -> inv_docfreq e i = Ok (idf_of e i).
Proof.
  intros H. unfold idf_of, inv_docfreq.
  rewrite (sr_docs_final e table H), (sr_table e table H).
  pose proof (sr_freq e table H i) as Hd. pose proof (sr_docs e table H) as Hn.
  destruct (Z.eq_dec (zd_get table i 0) 0) as [E|E].
  - rewrite E. reflexivity.
  - rewrite inv_df_positive by lia. reflexivity.
Qed.

Lemma embed_loop_entries (e : engine) (table : list (Z * Z)) (df : OD.t Z) :
  statistics_ready e table ->
  forall (ws : list string) (v : vector),
    NoDup ws ->
    (forall w, In w ws -> OD.mem (_vocab e) w = true) ->
    List.length v = Z.to_nat (_vocab_size e) ->
    exists v' : vector,
      embed_loop e df ws v = Ok v' /\
      List.length v' = List.length v /\
      (forall w i, In w ws -> OD.get (_vocab e) w = Some i ->
         nth (Z.to_nat i) v' 0%R = (fd_freq df w * idf_of e i)%R) /\
      (forall n : nat,
         (forall w, In w ws -> OD.get (_vocab e) w <> Some (Z.of_nat n)) ->
         nth n v' 0%R = nth n v 0%R).
Proof.
  intros Hr. induction ws as [|w ws IH]; intros v Hnd Hin Hlen.
  - exists v. simpl. repeat split; auto. intros w i [].
  - inversion Hnd as [|? ? Hw Hnd']; subst.
    assert (Hm : OD.mem (_vocab e) w = true) by (apply Hin; now left).
    unfold OD.mem in Hm. destruct (OD.get (_vocab e) w) as [i|] eqn:Hg; [|discriminate].
    pose proof (sr_range e table Hr w i Hg) as Hi.
    simpl. unfold embed_word.
    rewrite (vocab_lookup_known e w i (sr_vocab_final e table Hr) Hg Hi). simpl.
    rewrite (inv_docfreq_ready e table i Hr). simpl.
    set (v1 := vset v (Z.to_nat i) (fd_freq df w * idf_of e i)%R).
    destruct (IH v1 Hnd') as (v' & Hv' & Hl' & He' & Hu').
    { intros w' Hw'. apply Hin. now right. }
    { subst v1. now rewrite length_vset. }
    assert (Hfresh : forall w', In w' ws ->
                OD.get (_vocab e) w' <> Some (Z.of_nat (Z.to_nat i))).
    { intros w' Hw' Hg'. rewrite Z2Nat.id in Hg' by lia.
      assert (w' = w) by (eapply (sr_inj e table Hr); eauto). subst. contradiction. }
    exists v'. repeat split.
    + exact Hv'.
    + rewrite Hl'. subst v1. apply length_vset.
    + intros w0 i0 [<-|Hw0] Hg0.
      * rewrite Hg in Hg0. injection Hg0 as <-.
        rewrite (Hu' _ Hfresh). subst v1. apply nth_vset_eq. lia.
      * now apply He'.
    + intros n Hn. rewrite Hu'.
      * subst v1. apply nth_vset_neq. intros <-.
        apply (Hn w); [now left|]. rewrite Z2Nat.id by lia. exact Hg.
      * intros w' Hw'. apply Hn. now right.
Qed.

(** What [embed] computes.  With the statistics in place it returns a vector
    of length [_vocab_size]; it counts the tokens that are in the
    vocabulary and no other; the entry at the id of each counted token
    is its term frequency among the counted tokens times the inverse
    document frequency of the id; every other entry is 0. *)
Theorem embed_spec (e : engine) (table : list (Z * Z)) (text : string) :
  statistics_ready e table ->
  let toks := in_vocab_tokens e text in
  exists v : vector,
    embed e text = Ok v /\
    List.length v = Z.to_nat (_vocab_size e) /\
    (forall w i, In w toks -> OD.get (_vocab e) w = Some i ->
       inv_docfreq e i = Ok (idf_of e i) /\
       nth (Z.to_nat i) v 0%R = (term_frequency toks w * idf_of e i)%R) /\
    (forall n : nat,
       (forall w, In w toks -> OD.get (_vocab e) w <> Some (Z.of_nat n)) ->
       nth n v 0%R = 0%R).
Proof.
  intros Hr toks. unfold embed.
  pose proof (sr_size e table Hr) as Hsz.
  destruct (Z.ltb_spec (_vocab_size e) 0) as [Hneg|_].
  { unfold OD.len in Hsz. lia. }
  fold (in_vocab_tokens e text). fold toks.
  destruct (embed_loop_entries e table (FreqDist toks) Hr
              (OD.keys (FreqDist toks)) (zeros (Z.to_nat (_vocab_size e))))
    as (v & Hv & Hl & He & Hu).
  - apply fd_fold_keys_NoDup. constructor.
  - intros w Hw. apply fd_fold_keys_in in Hw. destruct Hw as [[]|Hw].
    unfold toks, in_vocab_tokens in Hw. apply filter_In in Hw. tauto.
  - apply length_zeros.
  - exists v. rewrite Hl, length_zeros.
    split; [exact Hv|]. split; [reflexivity|]. split.
    + intros w i Hw Hg. split; [apply (inv_docfreq_ready e table i Hr)|].
      rewrite <- fd_freq_FreqDist by (intros E; rewrite E in Hw; exact Hw).
      apply He; auto. apply fd_fold_keys_in. now right.
    + intros n Hn. rewrite Hu, nth_zeros; auto.
      intros w Hw. apply Hn. apply fd_fold_keys_in in Hw. now destruct Hw as [[]|Hw].
Qed.

Lemma toy_trained_ready : statistics_ready toy_trained [(0, 4); (1, 2)].
Proof.
  constructor; try reflexivity.
  - cbn. lia.
  - intros i. cbn [zd_get].
    destruct (Z.eqb_spec 0 i); [lia|]. destruct (Z.eqb_spec 1 i); lia.
  - intros w i. cbn [toy_trained _vocab _vocab_size OD.get].
    destruct (String.eqb "a" w); [intros H; injection H as <-; lia|].
    destruct (String.eqb kUNK w); [intros H; injection H as <-; lia | discriminate].
  - intros w w' i. cbn [toy_trained _vocab OD.get].
    destruct (String.eqb_spec "a" w) as [<-|Hw], (String.eqb_spec "a" w') as [<-|Hw'];
      auto.
    + intros H; injection H as <-.
      destruct (String.eqb_spec kUNK w') as [<-|]; discriminate.
    + destruct (String.eqb_spec kUNK w) as [<-|]; [|discriminate].
      intros H1 H2. congruence.
    + destruct (String.eqb_spec kUNK w) as [<-|]; [|discriminate].
      destruct (String.eqb_spec kUNK w') as [<-|]; [auto | discriminate].
Qed.

Lemma embed_spec_witness :
  let toks := in_vocab_tokens toy_trained "a b a"%string in
  exists v : vector,
    embed toy_trained "a b a"%string = Ok v /\
    List.length v = Z.to_nat (_vocab_size toy_trained) /\
    (forall w i, In w toks -> OD.get (_vocab toy_trained) w = Some i ->
       inv_docfreq toy_trained i = Ok (idf_of toy_trained i) /\
       nth (Z.to_nat i) v 0%R = (term_frequency toks w * idf_of toy_trained i)%R) /\
    (forall n : nat,
       (forall w, In w toks -> OD.get (_vocab toy_trained) w <> Some (Z.of_nat n)) ->
       nth n v 0%R = 0%R).
Proof.
  exact (embed_spec toy_trained [(0, 4); (1, 2)] "a b a"%string toy_trained_ready).
Defined.

(** A document with a token outside the vocabulary.  In "a b" the word
    "a" is one token of two and "b" is unknown.  [embed] drops "b": the
    entry of "a" is the whole inverse document frequency and the entry
    of the unknown id is 0, although its inverse document frequency is
    positive. *)
Example embed_ignores_unknown_tokens :
  _tokenizer toy_trained "a b"%string = ["a"; "b"]%string /\
  vocab_lookup toy_trained "b"%string = Ok 1 /\
  exists (v : vector) (x y : R),
    embed toy_trained "a b"%string = Ok v /\
    inv_docfreq toy_trained 0 = Ok x /\
    inv_docfreq toy_trained 1 = Ok y /\
    nth 0 v 0%R = x /\
    (1 / 2 * x < nth 0 v 0%R)%R /\
    nth 1 v 0%R = 0%R /\
    (0 < 1 / 2 * y)%R.
Proof.
  split; [reflexivity|]. split; [reflexivity|].
  exists [(fd_freq (FreqDist ["a"%string]) "a" * log10 (IZR 10 / IZR (1 + 4)))%R; 0%R],
         (log10 (IZR 10 / IZR (1 + 4))), (log10 (IZR 10 / IZR (1 + 2))).
  assert (Hf : fd_freq (FreqDist ["a"%string]) "a" = 1%R).
  { unfold fd_freq.
    change (fd_N (FreqDist ["a"%string])) with 1.
    change (fd_get (FreqDist ["a"%string]) "a") with 1.
    simpl. lra. }
  assert (Hx : (0 < log10 (IZR 10 / IZR (1 + 4)))%R).
  { apply log10_pos. change (1 + 4) with 5. lra. }
  assert (Hy : (0 < log10 (IZR 10 / IZR (1 + 2)))%R).
  { apply log10_pos. change (1 + 2) with 3. lra. }
  repeat split; try reflexivity.
  - cbn [nth]. rewrite Hf. lra.
  - cbn [nth]. rewrite Hf. lra.
  - lra.
Qed.

(** ** Signs of the weights *)

Lemma embed_word_signed (e : engine) (df : OD.t Z) (v v' : vector) (w : string) :
  (0 <= fd_freq df w)%R ->
  embed_word e df v w = Ok v' ->
  signed_by_idf e v -> signed_by_idf e v'.
Proof.
  intros Hf Hw Hs. unfold embed_word in Hw.
  destruct (vocab_lookup e w) as [i|] eqn:Hl; simpl in Hw; [|discriminate].
  destruct (inv_docfreq e i) as [x|] eqn:Hi; simpl in Hw; [|discriminate].
  injection Hw as <-.
  apply vocab_lookup_range in Hl.
  intros n. destruct (Nat.eq_dec (Z.to_nat i) n) as [<-|Hne].
  - destruct (Nat.lt_ge_cases (Z.to_nat i) (List.length v)) as [Hlt|Hge].
    + right. exists (fd_freq df w), x.
      rewrite Z2Nat.id by lia. repeat split; auto.
      now apply nth_vset_eq.
    + left. apply nth_overflow. now rewrite length_vset.
  - rewrite nth_vset_neq by exact Hne. apply Hs.
Qed.

Lemma embed_loop_signed (e : engine) (df : OD.t Z) :
  (forall w, 0 <= fd_freq df w)%R ->
  forall (ws : list string) (v v' : vector),
    embed_loop e df ws v = Ok v' -> signed_by_idf e v -> signed_by_idf e v'.
Proof.
  intros Hf. induction ws as [|w ws IH]; intros v v' H Hs; simpl in H.
  - now injection H as <-.
  - destruct (embed_word e df v w) as [v1|] eqn:E; simpl in H; [|discriminate].
    apply (IH v1 v' H). eapply embed_word_signed; eauto.
Qed.

(** Whatever the state of the instance, a vector returned by [embed]
    has in every coordinate a non-negative multiple of that
    coordinate's inverse document frequency. *)
Lemma embed_signed (e : engine) (text : string) (v : vector) :
  embed e text = Ok v -> signed_by_idf e v.
Proof.
  unfold embed. destruct (_vocab_size e <? 0); [discriminate|].
  intros H. eapply embed_loop_signed; [|exact H|].
  - intros w. apply fd_freq_nonneg.
  - intros n. left. apply nth_zeros.
Qed.

Lemma dot_cons (x y : R) (a b : vector) :
  dot (x :: a) (y :: b) = (x * y + dot a b)%R.
Proof. reflexivity. Qed.

Lemma dot_nil_l (b : vector) : dot [] b = 0%R.
Proof. reflexivity. Qed.

Lemma dot_nil_r (a : vector) : dot a [] = 0%R.
Proof. destruct a; reflexivity. Qed.

(** A weight of [embed] is never of the sign opposite to that of the
    inverse document frequency of its index: it is a term frequency,
    which is not negative, times that frequency.  Where the inverse
    document frequency is negative or zero, so is the weight; where it
    cannot be computed, the weight is zero. *)
Theorem embed_weight_sign (e : engine) (text : string) (v : vector) :
  embed e text = Ok v ->
  forall n : nat,
    match inv_docfreq e (Z.of_nat n) with
    | Ok x => ((0 <= x -> 0 <= nth n v 0) /\ (x <= 0 -> nth n v 0 <= 0))%R
    | Raise _ => nth n v 0%R = 0%R
    end.
Proof.
  intros Hv n. apply embed_signed in Hv.
  destruct (Hv n) as [H0 | (c & x & Hc & Hx & Hn)].
  - rewrite H0. destruct (inv_docfreq e (Z.of_nat n)); [lra | reflexivity].
  - rewrite Hx, Hn. split; intros Hs; nra.
Qed.

(** In a corpus of one document the only word is in every document:
    its inverse document frequency is [log10 (1 / 2)], below zero, and
    so its weight is not positive. *)
Lemma embed_weight_sign_witness :
  exists (v : vector) (x : R),
    embed one_doc "a"%string = Ok v /\
    inv_docfreq one_doc 0 = Ok x /\
    (x < 0)%R /\
    (nth 0 v 0 <= 0)%R.
Proof.
  exists one_doc_row, (log10 (IZR 1 / IZR (1 + 1))).
  assert (Hl : (log10 (IZR 1 / IZR (1 + 1)) < 0)%R).
  { change (1 + 1) with 2. apply log10_neg; lra. }
  split; [reflexivity|]. split; [reflexivity|]. split; [exact Hl|].
  pose proof (embed_weight_sign one_doc "a"%string one_doc_row eq_refl 0%nat) as H.
  change (inv_docfreq one_doc (Z.of_nat 0))
    with (@Ok R (log10 (IZR 1 / IZR (1 + 1)))) in H.
  cbv beta iota in H. apply H. lra.
Defined.

(** ** Saving and loading *)

Lemma append_inj_l (p a b : string) : (p ++ a)%string = (p ++ b)%string -> a = b.
Proof.
  induction p as [|c p IH]; simpl; intros H; auto.
  injection H as H. auto.
Qed.

Lemma paths_distinct (path : string) :
  vocab_path path <> tfidf_path path /\
  vocab_path path <> doccounts_path path /\
  tfidf_path path <> doccounts_path path.
Proof.
  unfold vocab_path, tfidf_path, doccounts_path.
  repeat split; intros H; apply append_inj_l in H; discriminate.
Qed.

(** Reduce the projections of updated instances. *)
Ltac fields :=
  cbn [filename _vocab _vocab_size _doc_vectors _doc_counts _total_docs
       _vocab_final _docs_final _doc_freq _tokenizer questions answers
       set_questions_answers set_vocab set_vocab_size set_vocab_final
       set_doc_vectors set_doc_counts set_total_docs set_docs_final].

Section RoundTrip.

Variable save_questions_and_answers : engine -> files -> files.
Variable load_questions_and_answers :
  engine -> files -> result (list string * list string).

Lemma read_saved_vocab (e : engine) (fs : files) :
  read_dict (save save_questions_and_answers e fs) (vocab_path (filename e)) =
  Ok (_vocab e).
Proof.
  destruct (paths_distinct (filename e)) as (H1 & H2 & H3).
  unfold read_dict, save.
  rewrite od_get_set_neq by auto. rewrite od_get_set_neq by auto.
  now rewrite od_get_set_eq.
Qed.

Lemma read_saved_array (e : engine) (fs : files) :
  read_array (save save_questions_and_answers e fs) (tfidf_path (filename e)) =
  Ok (_doc_vectors e).
Proof.
  destruct (paths_distinct (filename e)) as (H1 & H2 & H3).
  unfold read_array, save.
  rewrite od_get_set_neq by auto. now rewrite od_get_set_eq.
Qed.

Lemma read_saved_counts (e : engine) (fs : files) :
  read_dict (save save_questions_and_answers e fs) (doccounts_path (filename e)) =
  Ok (_doc_counts e).
Proof. unfold read_dict, save. now rewrite od_get_set_eq. Qed.

(** Saving and loading: what comes back and what does not.  Let [e]
    hold a matrix with as many columns as its vocabulary has entries.
    Saving it and loading the files into an instance with the same file
    name succeeds, given that the base class reads back the questions
    and answers it saved.  The loaded instance holds the saved
    vocabulary, matrix and counts, the size and the number of documents
    read off them, both flags set, and the saved questions and answers.
    The table that [inv_docfreq] reads and the tokenizer are those of
    the loading instance: [save] writes neither and [load] reads
    neither. *)
Theorem save_load_restores (e e0 : engine) (fs : files) (m : ndarray2) :
  _doc_vectors e = Some m ->
  shape1 m = OD.len (_vocab e) ->
  filename e0 = filename e ->
  load_questions_and_answers e0 (save save_questions_and_answers e fs) =
    Ok (questions e, answers e) ->
  exists e' : engine,
    load load_questions_and_answers (save save_questions_and_answers e fs) e0 =
      (Ok tt, e') /\
    _vocab e' = _vocab e /\
    _doc_vectors e' = Some m /\
    _doc_counts e' = _doc_counts e /\
    _vocab_size e' = OD.len (_vocab e) /\
    _total_docs e' = shape0 m /\
    _vocab_final e' = true /\
    _docs_final e' = true /\
    questions e' = questions e /\
    answers e' = answers e /\
    _doc_freq e' = _doc_freq e0 /\
    _tokenizer e' = _tokenizer e0.
Proof.
  intros Hm Hcols Hname Hqa.
  pose proof (read_saved_vocab e fs) as Rv.
  pose proof (read_saved_array e fs) as Ra.
  pose proof (read_saved_counts e fs) as Rc.
  set (fs' := save save_questions_and_answers e fs) in *.
  unfold load, and_then. rewrite Hqa.
  fields. rewrite Hname, Rv.
  fields. rewrite Hname, Ra.
  fields. rewrite Hname, Rc.
  fields. rewrite Hm.
  fields. rewrite <- Hcols, Z.eqb_refl.
  eexists. split; [reflexivity|].
  fields. repeat split; auto.
Qed.

End RoundTrip.

Lemma save_load_restores_witness :
  let fs := save sample_save_questions_and_answers saved_engine [] in
  exists e' : engine,
    load sample_load_questions_and_answers fs (init "one"%string 10 words lower 2) =
      (Ok tt, e') /\
    _vocab e' = _vocab saved_engine /\
    _doc_vectors e' = Some {| shape1 := 2; mrows := [zeros 2] |} /\
    _doc_counts e' = _doc_counts saved_engine /\
    _vocab_size e' = OD.len (_vocab saved_engine) /\
    _total_docs e' = shape0 {| shape1 := 2; mrows := [zeros 2] |} /\
    _vocab_final e' = true /\
    _docs_final e' = true /\
    questions e' = questions saved_engine /\
    answers e' = answers saved_engine /\
    _doc_freq e' = _doc_freq (init "one"%string 10 words lower 2) /\
    _tokenizer e' = _tokenizer (init "one"%string 10 words lower 2).
Proof.
  apply (save_load_restores
           sample_save_questions_and_answers sample_load_questions_and_answers
           saved_engine (init "one"%string 10 words lower 2) []
           {| shape1 := 2; mrows := [zeros 2] |});
    reflexivity.
Defined.

(** ** Training never completes *)

Lemma and_then_ok_inv {A B : Type} (m : M A) (k : A -> M B)
    (e e2 : engine) (b : B) :
  and_then m k e = (Ok b, e2) ->
  exists a e1, m e = (Ok a, e1) /\ k a e1 = (Ok b, e2).
Proof.
  unfold and_then. destruct (m e) as [[a|x] e1]; [eauto | discriminate].
Qed.

Lemma od_set_not_nil {V : Type} (d : OD.t V) (k : string) (v : V) :
  OD.set d k v <> [].
Proof.
  destruct d as [|[k' v'] d]; simpl; [discriminate|].
  destruct (String.eqb k' k); discriminate.
Qed.

Lemma finalize_vocab_not_empty (e : engine) :
  _vocab (snd (finalize_vocab e)) <> [].
Proof.
  unfold finalize_vocab.
  match goal with |- context [if ?b then _ else _] => destruct b end;
    simpl; apply od_set_not_nil.
Qed.

Lemma scan_all_keeps_vocab (qs : list string) :
  forall e, _vocab (snd (for_each (fun q e => scan_document e q) qs e)) = _vocab e.
Proof.
  induction qs as [|q qs IH]; intros e; simpl; auto.
  unfold and_then.
  assert (Hs : _vocab (snd (scan_document e q)) = _vocab e).
  { unfold scan_document. destruct (_vocab_final e), (_docs_final e); reflexivity. }
  destruct (scan_document e q) as [[u|x] e1]; simpl in *; auto.
  now rewrite IH.
Qed.

(** On an instance without the table, and so on every instance the
    class can build, [train] raises: at the latest [finalize_docs]
    does, since the vocabulary holds at least the unknown token. *)
Lemma train_always_raises (e : engine) (qs ans : list string) :
  _doc_freq e = None -> exists x, fst (train qs ans e) = Raise x.
Proof.
  intros Hf. destruct (train qs ans e) as [[u|x] e'] eqn:E; [exfalso | simpl; eauto].
  unfold train in E.
  apply and_then_ok_inv in E. destruct E as (a1 & e1 & E1 & E).
  apply and_then_ok_inv in E. destruct E as (a2 & e2 & E2 & E).
  apply and_then_ok_inv in E. destruct E as (a3 & e3 & E3 & E).
  apply and_then_ok_inv in E. destruct E as (a4 & e4 & E4 & E).
  apply and_then_ok_inv in E. destruct E as (a5 & e5 & E5 & _).
  injection E1 as _ <-.
  pose proof (keeps_for_each observe_question qs keeps_observe_question
                (set_questions_answers e qs ans)) as K2.
  rewrite E2 in K2. simpl in K2.
  pose proof (keeps_finalize_vocab e2) as K3. rewrite E3 in K3. simpl in K3.
  pose proof (finalize_vocab_not_empty e2) as V3. rewrite E3 in V3. simpl in V3.
  pose proof (keeps_for_each (fun q e => scan_document e q) qs
                (fun q => keeps_scan_document q) e3) as K4.
  rewrite E4 in K4. simpl in K4.
  pose proof (scan_all_keeps_vocab qs e3) as V4. rewrite E4 in V4. simpl in V4.
  assert (H4 : _doc_freq e4 = None) by congruence.
  assert (N4 : _vocab e4 <> []) by (rewrite V4; exact V3).
  pose proof (finalize_docs_raises e4 H4 N4) as R. rewrite E5 in R. discriminate.
Qed.

(** ** The lookup when the unknown token was not observed *)

Lemma od_get_in {V : Type} (d : OD.t V) (k : string) (v : V) :
  OD.get d k = Some v -> In (k, v) d.
Proof.
  induction d as [|[k' v'] d IH]; simpl; [discriminate|].
  destruct (String.eqb_spec k' k) as [->|Hne].
  - intros H. injection H as <-. now left.
  - intros H. right. auto.
Qed.

Lemma od_get_app {V : Type} (d d' : OD.t V) (k : string) :
  OD.get (d ++ d') k =
  match OD.get d k with Some v => Some v | None => OD.get d' k end.
Proof.
  induction d as [|[k' v'] d IH]; simpl; auto.
  destruct (String.eqb k' k); auto.
Qed.

(** After a successful [finalize_vocab] on counts that do not keep the
    string of the unknown token, [vocab_lookup] returns for every word:
    the word's id if it has one, the last id otherwise, always below
    the size. *)
Lemma vocab_lookup_total (e : engine) (word : string) :
  NoDup (OD.keys (_doc_counts e)) ->
  ~ In kUNK (OD.keys (kept_tokens e)) ->
  fst (finalize_vocab e) = Ok tt ->
  let e' := snd (finalize_vocab e) in
  exists i : Z,
    vocab_lookup e' word = Ok i /\
    0 <= i < _vocab_size e' /\
    (OD.get (_vocab e') word = Some i \/
     (OD.get (_vocab e') word = None /\ i = _vocab_size e' - 1)).
Proof.
  intros Hnd Hunk Hok e'.
  destruct (finalize_vocab_mapping e Hnd Hunk) as [Hv Hsz].
  destruct (finalize_vocab_outcome e) as [(_ & Hfin & _)|(Hr & _)];
    [|rewrite Hok in Hr; discriminate].
  fold e' in Hv, Hsz, Hfin.
  set (k := Z.of_nat (List.length (kept_tokens e))) in *.
  assert (Hk : 0 <= k) by (unfold k; lia).
  assert (Hu : OD.get (_vocab e') kUNK = Some k).
  { rewrite Hv, od_get_app.
    destruct (OD.get (number_ids 0 (OD.keys (kept_tokens e))) kUNK) eqn:E.
    - exfalso. apply Hunk. apply od_get_in in E.
      rewrite <- (keys_number_ids 0 (OD.keys (kept_tokens e))).
      unfold OD.keys at 1. apply in_map_iff. eexists; split; [|exact E]. reflexivity.
    - reflexivity. }
  unfold vocab_lookup. rewrite Hfin.
  destruct (OD.get (_vocab e') word) as [i|] eqn:Hg.
  - assert (Hi : 0 <= i < k + 1).
    { apply od_get_in in Hg. rewrite Hv in Hg. apply in_app_or in Hg.
      destruct Hg as [Hg|[Hg|[]]].
      - apply in_number_ids in Hg. unfold OD.keys in Hg.
        rewrite length_map in Hg. unfold k. lia.
      - injection Hg as _ <-. lia. }
    exists i. simpl.
    destruct (Z.leb_spec 0 i), (Z.ltb_spec i (_vocab_size e')); simpl; try lia.
    repeat split; auto; lia.
  - rewrite Hu. exists k. simpl.
    destruct (Z.leb_spec 0 k), (Z.ltb_spec k (_vocab_size e')); simpl; try lia.
    repeat split; auto; try lia. right. split; [reflexivity | lia].
Qed.

(** Once the vocabulary is final and the lookup returns for every word,
    [tokenize] yields one id for each raw token, the id of its
    normalized form. *)
Lemma tokenize_after_final (e : engine) (sent : string) :
  _vocab_final e = true ->
  (forall w, exists i, vocab_lookup e w = Ok i) ->
  exists ids : list Z,
    tokenize e sent = (map TId ids, None) /\
    List.length ids = List.length (_tokenizer e sent) /\
    Forall2 (fun ii i => vocab_lookup e (_normalizer e ii) = Ok i)
      (_tokenizer e sent) ids.
Proof.
  intros Hf Hl. unfold tokenize.
  induction (_tokenizer e sent) as [|ii raw IH].
  - exists []. simpl. repeat split. constructor.
  - destruct IH as (ids & Ht & Hn & Hall).
    destruct (Hl (_normalizer e ii)) as [i Hi].
    exists (i :: ids). simpl. rewrite Hf, Hi, Ht. simpl.
    repeat split; [now rewrite Hn | now constructor].
Qed.

(** ** The general laws on the small instances *)

Lemma scan_document_counts_witness :
  let r := scan_document toy_a "a b a"%string in
  fst r = Ok tt /\
  _total_docs (snd r) = _total_docs toy_a + 1 /\
  fd_get (_doc_counts (snd r)) "a"%string =
    fd_get (_doc_counts toy_a) "a"%string +
    occurrences (_vocab toy_a) "a"%string (_tokenizer toy_a "a b a"%string).
Proof.
  apply (scan_document_counts toy_a "a b a"%string "a"%string); reflexivity.
Defined.

Lemma toy_seen_keeps_no_unk : ~ In kUNK (OD.keys (kept_tokens toy_seen)).
Proof. vm_compute. intuition discriminate. Qed.

Lemma vocab_lookup_total_witness :
  let e' := snd (finalize_vocab toy_seen) in
  exists i : Z,
    vocab_lookup e' "zebra"%string = Ok i /\
    0 <= i < _vocab_size e' /\
    (OD.get (_vocab e') "zebra"%string = Some i \/
     (OD.get (_vocab e') "zebra"%string = None /\ i = _vocab_size e' - 1)).
Proof.
  apply (vocab_lookup_total toy_seen "zebra"%string
           toy_seen_keys_NoDup toy_seen_keeps_no_unk).
  reflexivity.
Defined.

Lemma train_always_raises_witness :
  exists x, fst (train ["a a"; "a b"]%string ["A"; "B"]%string toy) = Raise x.
Proof.
  apply (train_always_raises toy). reflexivity.
Defined.

Lemma tokenize_before_final_witness :
  tokenize toy "The Cat"%string =
  (map (fun ii => TStr (_normalizer toy ii)) (_tokenizer toy "The Cat"%string), None).
Proof.
  apply (tokenize_before_final toy "The Cat"%string). reflexivity.
Defined.

(** The run of [train] on the small instance: [finalize_docs] raises and
    the matrix is never built. *)
Example train_toy :
  fst (train ["a a"; "a b"]%string ["A"; "B"]%string toy) = Raise AttributeError /\
  _doc_vectors (snd (train ["a a"; "a b"]%string ["A"; "B"]%string toy)) = None.
Proof. split; reflexivity. Qed.

(** * More of the class *)

(** ** Accumulating the counts *)

Lemma vocab_seen_open (e : engine) (word : string) (count : Z) :
  _vocab_final e = false ->
  vocab_seen e word count =
  (Ok tt, set_doc_counts e (fd_add (_doc_counts e) word count)).
Proof. intros H. unfold vocab_seen. now rewrite H. Qed.

(** Any sequence of [vocab_seen] calls on an instance whose vocabulary
    is not final leaves every word with its former count plus the sum
    of the counts given for it, keeps the keys distinct, and changes
    nothing but the counts. *)
Theorem observe_counts_accumulates (l : list (string * Z)) (e : engine) (w : string) :
  _vocab_final e = false ->
  NoDup (OD.keys (_doc_counts e)) ->
  let e' := observe_counts l e in
  fd_get (_doc_counts e') w = fd_get (_doc_counts e) w + total_for w l /\
  NoDup (OD.keys (_doc_counts e')) /\
  (forall w', In w' (OD.keys (_doc_counts e')) <->
              In w' (OD.keys (_doc_counts e)) \/ In w' (map fst l)) /\
  e' = set_doc_counts e (_doc_counts e').
Proof.
  revert e. induction l as [|[w0 c] l IH]; intros e Hf Hnd; simpl.
  - repeat split; auto; try lia; try tauto. now destruct e.
  - rewrite vocab_seen_open by exact Hf. simpl.
    specialize (IH (set_doc_counts e (fd_add (_doc_counts e) w0 c)) Hf).
    simpl in IH. destruct IH as (Hg & Hn & Hk & He).
    { unfold fd_add. now apply od_keys_set_NoDup. }
    repeat split.
    + rewrite Hg, fd_get_fd_add. destruct (String.eqb_spec w0 w); subst; lia.
    + exact Hn.
    + intros H. apply Hk in H. unfold fd_add in H. rewrite od_keys_set in H.
      destruct (OD.mem (_doc_counts e) w0) eqn:E; [tauto|].
      destruct H as [H|H]; [|tauto]. apply in_app_or in H.
      destruct H as [H|[<-|[]]]; tauto.
    + intros H. apply Hk. unfold fd_add. rewrite od_keys_set.
      destruct (OD.mem (_doc_counts e) w0) eqn:E.
      * destruct H as [H|[<-|H]]; auto. left. now apply od_mem_in.
      * rewrite in_app_iff. simpl. tauto.
    + rewrite He at 1. reflexivity.
Qed.

Lemma observe_counts_accumulates_witness :
  let e' := observe_counts [("a", 2); ("b", 1); ("a", 3)]%string toy in
  fd_get (_doc_counts e') "a"%string =
    fd_get (_doc_counts toy) "a"%string +
    total_for "a"%string [("a", 2); ("b", 1); ("a", 3)]%string /\
  NoDup (OD.keys (_doc_counts e')) /\
  (forall w', In w' (OD.keys (_doc_counts e')) <->
              In w' (OD.keys (_doc_counts toy)) \/
              In w' (map fst [("a", 2); ("b", 1); ("a", 3)]%string)) /\
  e' = set_doc_counts toy (_doc_counts e').
Proof.
  apply (observe_counts_accumulates [("a", 2); ("b", 1); ("a", 3)]%string toy "a"%string).
  - reflexivity.
  - constructor.
Defined.

(** Once the vocabulary is final [vocab_seen] is refused and changes
    nothing, whatever the sequence of calls. *)
Lemma observe_counts_final (l : list (string * Z)) (e : engine) :
  _vocab_final e = true -> observe_counts l e = e.
Proof.
  intros Hf. induction l as [|[w c] l IH]; simpl; auto.
  unfold vocab_seen at 1. rewrite Hf. exact IH.
Qed.

(** ** The first two passes of [train] *)

Lemma tokenize_loop_open (e : engine) (raw : list string) :
  _vocab_final e = false ->
  tokenize_loop e raw = (map (fun ii => TStr (_normalizer e ii)) raw, None).
Proof.
  intros Hf. induction raw as [|ii raw IH]; simpl; auto.
  now rewrite Hf, IH.
Qed.

Lemma for_each_vocab_seen_open (ws : list string) :
  forall e, _vocab_final e = false ->
    for_each vocab_seen_token (map TStr ws) e =
    (Ok tt, set_doc_counts e (fold_left (fun d w => fd_add d w 1) ws (_doc_counts e))).
Proof.
  induction ws as [|w ws IH]; intros e Hf; simpl.
  - now destruct e.
  - unfold and_then. simpl. rewrite vocab_seen_open by exact Hf.
    rewrite IH by exact Hf. reflexivity.
Qed.

Lemma observe_question_open (e : engine) (question : string) :
  _vocab_final e = false ->
  observe_question question e =
  (Ok tt,
   set_doc_counts e
     (fold_left (fun d w => fd_add d w 1) (normalized_tokens e question)
        (_doc_counts e))).
Proof.
  intros Hf. unfold observe_question, tokenize.
  rewrite tokenize_loop_open by exact Hf.
  rewrite <- (map_map (_normalizer e) TStr).
  rewrite for_each_vocab_seen_open by exact Hf. reflexivity.
Qed.

(** The first pass of [train] over a list of questions, on an instance
    whose vocabulary is not final, succeeds; afterwards the count of
    every word is its former count plus its occurrences among the
    normalized tokens of all the questions, and nothing else changed. *)
Theorem first_pass_counts (qs : list string) (e : engine) (w : string) :
  _vocab_final e = false ->
  let r := for_each observe_question qs e in
  fst r = Ok tt /\
  fd_get (_doc_counts (snd r)) w =
    fd_get (_doc_counts e) w + count_word w (corpus_tokens e qs) /\
  snd r = set_doc_counts e (_doc_counts (snd r)).
Proof.
  revert e. induction qs as [|q qs IH]; intros e Hf; simpl.
  - repeat split; [lia | now destruct e].
  - unfold and_then. rewrite observe_question_open by exact Hf.
    set (e1 := set_doc_counts e _).
    destruct (IH e1 Hf) as (Hok & Hg & He).
    destruct (for_each observe_question qs e1) as [r e2]. simpl in *.
    repeat split.
    + exact Hok.
    + rewrite Hg. subst e1. simpl. rewrite fd_fold_get.
      unfold corpus_tokens. simpl.
      assert (Hc : forall l1 l2, count_word w (l1 ++ l2) = count_word w l1 + count_word w l2).
      { induction l1 as [|t l1 IHl]; intros l2; simpl; [lia | rewrite IHl; lia]. }
      rewrite Hc, <- Z.add_assoc. reflexivity.
    + rewrite He at 1. reflexivity.
Qed.

Lemma first_pass_counts_witness :
  let r := for_each observe_question ["The cat"; "the Dog"]%string toy in
  fst r = Ok tt /\
  fd_get (_doc_counts (snd r)) "the"%string =
    fd_get (_doc_counts toy) "the"%string +
    count_word "the"%string (corpus_tokens toy ["The cat"; "the Dog"]%string) /\
  snd r = set_doc_counts toy (_doc_counts (snd r)).
Proof.
  apply (first_pass_counts ["The cat"; "the Dog"]%string toy "the"%string).
  reflexivity.
Defined.

Lemma scan_document_open (e : engine) (text : string) :
  _vocab_final e = true -> _docs_final e = false ->
  scan_document e text =
  (Ok tt,
   set_total_docs
     (set_doc_counts e
        (fold_left (scan_word (_vocab e)) (_tokenizer e text) (_doc_counts e)))
     (_total_docs e + 1)).
Proof. intros Hv Hd. unfold scan_document. now rewrite Hv, Hd. Qed.

(** The second pass of [train] over a list of documents, on an instance
    with a final vocabulary and documents not final, succeeds; it adds
    the number of documents to [_total_docs], which is what the
    assertion of [train] compares with the number of questions, adds to
    every counter the occurrences counted under its key, and leaves the
    vocabulary and the flags as they were. *)
Theorem second_pass_counts (qs : list string) (e : engine) (w : string) :
  _vocab_final e = true -> _docs_final e = false ->
  let r := for_each (fun question e => scan_document e question) qs e in
  fst r = Ok tt /\
  _total_docs (snd r) = _total_docs e + Z.of_nat (List.length qs) /\
  fd_get (_doc_counts (snd r)) w =
    fd_get (_doc_counts e) w + corpus_occurrences e w qs /\
  snd r = set_total_docs (set_doc_counts e (_doc_counts (snd r))) (_total_docs (snd r)).
Proof.
  revert e. induction qs as [|q qs IH]; intros e Hv Hd.
  - simpl. repeat split; try lia. now destruct e.
  - cbn [for_each]. unfold and_then. rewrite scan_document_open by assumption.
    set (e1 := set_total_docs _ _).
    destruct (IH e1 Hv Hd) as (Hok & Ht & Hg & He).
    destruct (for_each (fun question e0 => scan_document e0 question) qs e1) as [r e2].
    cbn [fst snd] in *. repeat split.
    + exact Hok.
    + rewrite Ht. subst e1. cbn [_total_docs set_total_docs List.length]. lia.
    + rewrite Hg. subst e1. cbn [_doc_counts set_total_docs set_doc_counts].
      rewrite scan_fold_counts. cbn [corpus_occurrences].
      replace (corpus_occurrences (set_total_docs (set_doc_counts e
                 (fold_left (scan_word (_vocab e)) (_tokenizer e q) (_doc_counts e)))
                 (_total_docs e + 1)) w qs)
        with (corpus_occurrences e w qs); [lia|].
      clear. induction qs as [|q' qs IHq]; simpl; auto. now rewrite IHq.
    + rewrite He at 1. reflexivity.
Qed.

Lemma second_pass_counts_witness :
  let r := for_each (fun question e => scan_document e question)
             ["a a"; "a b"]%string toy_a in
  fst r = Ok tt /\
  _total_docs (snd r) = _total_docs toy_a + Z.of_nat (List.length ["a a"; "a b"]%string) /\
  fd_get (_doc_counts (snd r)) kUNK =
    fd_get (_doc_counts toy_a) kUNK +
    corpus_occurrences toy_a kUNK ["a a"; "a b"]%string /\
  snd r = set_total_docs (set_doc_counts toy_a (_doc_counts (snd r)))
            (_total_docs (snd r)).
Proof.
  apply (second_pass_counts ["a a"; "a b"]%string toy_a kUNK); reflexivity.
Defined.

(** ** The finalized vocabulary *)

Lemma get_number_ids (ws : list string) :
  forall (i : Z) (n : nat) (w : string),
    NoDup ws -> nth_error ws n = Some w ->
    OD.get (number_ids i ws) w = Some (i + Z.of_nat n).
Proof.
  induction ws as [|w0 ws IH]; intros i [|n] w Hnd H; simpl in *; try discriminate.
  - injection H as <-. rewrite String.eqb_refl. f_equal. lia.
  - inversion Hnd as [|? ? Hw Hnd']; subst.
    destruct (String.eqb_spec w0 w) as [Heq|Hne].
    + exfalso. subst. apply Hw. eapply nth_error_In; eauto.
    + rewrite (IH (i + 1) n w Hnd' H). f_equal. lia.
Qed.

Lemma get_number_ids_inv (ws : list string) :
  forall (i j : Z) (w : string),
    OD.get (number_ids i ws) w = Some j ->
    i <= j /\ nth_error ws (Z.to_nat (j - i)) = Some w.
Proof.
  induction ws as [|w0 ws IH]; intros i j w H; simpl in *; [discriminate|].
  destruct (String.eqb_spec w0 w) as [Heq|Hne].
  - subst. injection H as <-. rewrite Z.sub_diag. simpl. split; [lia | reflexivity].
  - apply IH in H. destruct H as [Hij Hn]. split; [lia|].
    replace (Z.to_nat (j - i)) with (S (Z.to_nat (j - (i + 1)))) by lia.
    exact Hn.
Qed.

Lemma NoDup_keys_filter (f : string * Z -> bool) (l : list (string * Z)) :
  NoDup (OD.keys l) -> NoDup (OD.keys (filter f l)).
Proof.
  unfold OD.keys. induction l as [|x l IH]; simpl; intros H; auto.
  inversion H as [|? ? Hx Hl]; subst.
  destruct (f x); simpl; auto.
  constructor; auto. intros Hin. apply Hx.
  apply in_map_iff in Hin. destruct Hin as (y & Hy & Hin).
  apply filter_In in Hin. apply in_map_iff. exists y. tauto.
Qed.

(** When fewer items of the slice reach the cutoff than the slice may
    hold, no item reaching the cutoff was cut off. *)
Lemma filter_firstn_all (cutoff : Z) (l : list (string * Z)) :
  StronglySorted by_count_desc l ->
  forall m : nat,
    (List.length (filter (count_ge cutoff) (firstn m l)) < m)%nat ->
    filter (count_ge cutoff) (firstn m l) = filter (count_ge cutoff) l.
Proof.
  induction 1 as [|x l Hs IH Hx]; intros [|m] Hm; simpl in *; try lia; auto.
  destruct (count_ge cutoff x) eqn:E; simpl in *.
  - f_equal. apply IH. lia.
  - assert (Hlt : snd x < cutoff) by (unfold count_ge in E; now apply Z.leb_gt in E).
    rewrite (filter_below_cutoff cutoff x l Hlt Hx).
    apply (filter_below_cutoff cutoff x); auto.
    rewrite Forall_forall in *. intros y Hy. apply Hx.
    rewrite <- (firstn_skipn m l). apply in_or_app. now left.
Qed.

Lemma od_get_in_NoDup {V : Type} (d : OD.t V) (k : string) (v : V) :
  NoDup (OD.keys d) -> In (k, v) d -> OD.get d k = Some v.
Proof.
  induction d as [|[k' v'] d IH]; simpl; intros Hnd H; [contradiction|].
  inversion Hnd as [|? ? Hk Hnd']; subst.
  destruct H as [H|H].
  - injection H as -> ->. now rewrite String.eqb_refl.
  - destruct (String.eqb_spec k' k) as [->|Hne]; auto.
    exfalso. apply Hk. unfold OD.keys. apply in_map_iff. exists (k, v). auto.
Qed.

Lemma od_set_length_ge {V : Type} (d : OD.t V) (k : string) (v : V) :
  (List.length d <= List.length (OD.set d k v))%nat.
Proof.
  induction d as [|[k' v'] d IH]; simpl; [lia|].
  destruct (String.eqb k' k); simpl; lia.
Qed.

(** A successful [finalize_vocab] kept every observed word whose count
    reaches the cutoff: the cap did not bite. *)
Lemma kept_tokens_on_success (e : engine) :
  NoDup (OD.keys (_doc_counts e)) ->
  fst (finalize_vocab e) = Ok tt ->
  kept_tokens e = filter (count_ge (_unk_cutoff e)) (sorted_desc (_doc_counts e)).
Proof.
  intros Hnd Hok.
  destruct (slice_sorted_counts e Hnd) as [Hs Hk].
  pose proof (vocab_comprehension_sorted (_unk_cutoff e) _ Hs Hk) as Hv0.
  fold (kept_tokens e) in Hv0.
  assert (Hsz : Z.of_nat (List.length (kept_tokens e)) < _max_vocab_size e).
  { revert Hok. unfold finalize_vocab. rewrite Hv0.
    match goal with |- context [if ?a <? ?b then _ else _] =>
      destruct (Z.ltb_spec a b) as [H|H] end; [|discriminate].
    intros _. simpl in H. unfold OD.len in H.
    pose proof (od_set_length_ge (number_ids 0 (OD.keys (kept_tokens e))) kUNK
                  (Z.of_nat (List.length (number_ids 0 (OD.keys (kept_tokens e)))))) as Hl.
    rewrite length_number_ids in *. unfold OD.keys in *. rewrite length_map in *. lia. }
  unfold kept_tokens in *. unfold slice_to in *.
  destruct (Z.leb_spec 0 (_max_vocab_size e)) as [Hm|Hm]; [|lia].
  apply filter_firstn_all; [apply sorted_desc_sorted | lia].
Qed.

(** The shape of the vocabulary after a successful [finalize_vocab] that
    did not keep the string of the unknown token. *)
Lemma finalized_vocab_shape (e : engine) :
  NoDup (OD.keys (_doc_counts e)) ->
  ~ In kUNK (OD.keys (kept_tokens e)) ->
  fst (finalize_vocab e) = Ok tt ->
  let e' := snd (finalize_vocab e) in
  let ks := OD.keys (kept_tokens e) in
  let k := Z.of_nat (List.length ks) in
  _vocab e' = number_ids 0 ks ++ [(kUNK, k)] /\
  _vocab_size e' = k + 1 /\
  _vocab_final e' = true /\
  NoDup ks /\
  (forall w, In w ks <->
     exists c, OD.get (_doc_counts e) w = Some c /\ _unk_cutoff e <= c).
Proof.
  intros Hnd Hunk Hok e' ks k.
  destruct (finalize_vocab_mapping e Hnd Hunk) as [Hv Hsz].
  destruct (finalize_vocab_outcome e) as [(_ & Hfin & _)|(Hr & _)];
    [|rewrite Hok in Hr; discriminate].
  destruct (slice_sorted_counts e Hnd) as [_ Hk].
  assert (Hlen : List.length ks = List.length (kept_tokens e))
    by (unfold ks, OD.keys; apply length_map).
  subst k. rewrite Hlen.
  split; [exact Hv|]. split; [exact Hsz|]. split; [exact Hfin|].
  split; [unfold ks, kept_tokens; now apply NoDup_keys_filter|].
  intros w. unfold ks. split.
  - intros Hin. rewrite (kept_tokens_on_success e Hnd Hok) in Hin.
    unfold OD.keys in Hin. apply in_map_iff in Hin.
    destruct Hin as ([w' c] & Hw & Hin). simpl in Hw. subst w'.
    apply filter_In in Hin.
    destruct Hin as [Hin Hc]. exists c. split.
    + apply od_get_in_NoDup; auto.
      eapply Permutation_in; [apply sorted_desc_perm | exact Hin].
    + unfold count_ge in Hc. now apply Z.leb_le.
  - intros (c & Hg & Hc). rewrite (kept_tokens_on_success e Hnd Hok).
    unfold OD.keys. apply in_map_iff. exists (w, c). split; auto.
    apply filter_In. split.
    + eapply Permutation_in; [apply Permutation_sym, sorted_desc_perm|].
      now apply od_get_in.
    + unfold count_ge. now apply Z.leb_le.
Qed.

Lemma get_shape (ks : list string) (w : string) (i : Z) :
  NoDup ks -> ~ In kUNK ks ->
  let k := Z.of_nat (List.length ks) in
  OD.get (number_ids 0 ks ++ [(kUNK, k)]) w = Some i <->
  (0 <= i < k /\ nth_error ks (Z.to_nat i) = Some w) \/ (w = kUNK /\ i = k).
Proof.
  intros Hnd Hunk k. rewrite od_get_app.
  destruct (OD.get (number_ids 0 ks) w) as [j|] eqn:E.
  - pose proof (get_number_ids_inv ks 0 j w E) as [Hj Hn].
    rewrite Z.sub_0_r in Hn.
    assert (Hlt : (Z.to_nat j < List.length ks)%nat)
      by (apply nth_error_Some; congruence).
    split.
    + intros H. injection H as <-. left. split; [lia | exact Hn].
    + intros [[Hi Hw]|[-> ->]].
      * rewrite (get_number_ids ks 0 (Z.to_nat i) w Hnd Hw) in E.
        injection E as <-. f_equal. lia.
      * exfalso. apply Hunk. eapply nth_error_In; eauto.
  - cbn [OD.get]. destruct (String.eqb_spec kUNK w) as [<-|Hne].
    + split.
      * intros H. injection H as <-. now right.
      * intros [[Hi Hw]|[_ ->]]; [|reflexivity].
        exfalso. apply Hunk. eapply nth_error_In; eauto.
    + split; [discriminate|].
      intros [[Hi Hw]|[-> _]]; [|contradiction].
      rewrite (get_number_ids ks 0 (Z.to_nat i) w Hnd Hw) in E. discriminate.
Qed.

Lemma finalized_vocab_wf (e : engine) :
  NoDup (OD.keys (_doc_counts e)) ->
  ~ In kUNK (OD.keys (kept_tokens e)) ->
  fst (finalize_vocab e) = Ok tt ->
  vocab_wf (snd (finalize_vocab e)).
Proof.
  intros Hnd Hunk Hok.
  destruct (finalized_vocab_shape e Hnd Hunk Hok) as (Hv & Hsz & Hfin & Hks & _).
  set (e' := snd (finalize_vocab e)) in *.
  set (ks := OD.keys (kept_tokens e)) in *.
  constructor.
  - exact Hfin.
  - rewrite Hv. unfold OD.keys. rewrite map_app.
    fold (OD.keys (number_ids 0 ks)). rewrite keys_number_ids. simpl.
    apply NoDup_app; auto.
    + constructor; [intros []|constructor].
    + intros x Hx [<-|[]]. contradiction.
  - rewrite Hsz, Hv. unfold OD.len. rewrite length_app, length_number_ids.
    simpl. lia.
  - intros w i Hg. rewrite Hv in Hg. apply get_shape in Hg; auto.
    rewrite Hsz. destruct Hg as [[Hi _]|[_ ->]]; lia.
  - intros w w' i Hg Hg'. rewrite Hv in Hg, Hg'.
    apply get_shape in Hg; auto. apply get_shape in Hg'; auto.
    destruct Hg as [[Hi Hw]|[-> ->]], Hg' as [[Hi' Hw']|[-> Hk']];
      try congruence; lia.
  - intros i Hi. rewrite Hsz in Hi. rewrite Hv.
    destruct (Z.eq_dec i (Z.of_nat (List.length ks))) as [->|Hne].
    + exists kUNK. apply get_shape; auto.
    + destruct (nth_error ks (Z.to_nat i)) as [w|] eqn:E.
      * exists w. apply get_shape; auto. left. split; [lia | exact E].
      * apply nth_error_None in E. lia.
  - rewrite Hsz, Hv. apply get_shape; auto. right. split; [reflexivity | lia].
Qed.

(** On a well-formed vocabulary the lookup is the id of a known word
    and the last id for any other word. *)
Lemma vocab_lookup_wf (e : engine) (w : string) :
  vocab_wf e ->
  vocab_lookup e w =
  Ok (match OD.get (_vocab e) w with
      | Some i => i
      | None => _vocab_size e - 1
      end).
Proof.
  intros H. unfold vocab_lookup. rewrite (wf_final e H), (wf_unk e H).
  destruct (OD.get (_vocab e) w) as [i|] eqn:E; simpl.
  - pose proof (wf_range e H w i E) as Hi.
    destruct (Z.leb_spec 0 i), (Z.ltb_spec i (_vocab_size e)); simpl; auto; lia.
  - pose proof (wf_range e H kUNK _ (wf_unk e H)) as Hi.
    destruct (Z.leb_spec 0 (_vocab_size e - 1)),
             (Z.ltb_spec (_vocab_size e - 1) (_vocab_size e)); simpl; auto; lia.
Qed.

Lemma vocab_key_in_found (d : OD.t Z) (w : string) (i : Z) :
  NoDup (OD.keys d) ->
  (forall a b j, OD.get d a = Some j -> OD.get d b = Some j -> a = b) ->
  OD.get d w = Some i -> vocab_key_in d i = w.
Proof.
  induction d as [|[w0 i0] d IH]; simpl; intros Hnd Hinj Hg; [discriminate|].
  inversion Hnd as [|? ? Hw0 Hnd']; subst.
  destruct (Z.eqb_spec i0 i) as [->|Hne].
  - apply (Hinj w0 w i); [now rewrite String.eqb_refl | exact Hg].
  - destruct (String.eqb_spec w0 w) as [->|Hw]; [congruence|].
    apply IH; auto.
    intros a b j Ha Hb. apply (Hinj a b j).
    + destruct (String.eqb_spec w0 a) as [->|]; auto.
      exfalso. apply Hw0. apply od_get_in in Ha.
      unfold OD.keys. apply in_map_iff. exists (a, j). auto.
    + destruct (String.eqb_spec w0 b) as [->|]; auto.
      exfalso. apply Hw0. apply od_get_in in Hb.
      unfold OD.keys. apply in_map_iff. exists (b, j). auto.
Qed.

Lemma vocab_key_in_missing (d : OD.t Z) (i : Z) :
  (forall w, ~ In (w, i) d) -> vocab_key_in d i = kUNK.
Proof.
  induction d as [|[w0 i0] d IH]; simpl; intros H; auto.
  destruct (Z.eqb_spec i0 i) as [->|Hne].
  - exfalso. apply (H w0). now left.
  - apply IH. intros w Hw. apply (H w). now right.
Qed.

(** After a successful [finalize_vocab] that did not keep the string of
    the unknown token, the vocabulary is a bijection between its words
    and the ids below its size: the size is that of the mapping, every
    id is in range, no id is shared, every id in range is taken, and
    the unknown token holds the last one. *)
Theorem finalize_vocab_bijection (e : engine) :
  NoDup (OD.keys (_doc_counts e)) ->
  ~ In kUNK (OD.keys (kept_tokens e)) ->
  fst (finalize_vocab e) = Ok tt ->
  let e' := snd (finalize_vocab e) in
  _vocab_size e' = OD.len (_vocab e') /\
  (forall w i, OD.get (_vocab e') w = Some i -> 0 <= i < _vocab_size e') /\
  (forall w w' i,
     OD.get (_vocab e') w = Some i -> OD.get (_vocab e') w' = Some i -> w = w') /\
  (forall i, 0 <= i < _vocab_size e' -> exists w, OD.get (_vocab e') w = Some i) /\
  OD.get (_vocab e') kUNK = Some (_vocab_size e' - 1).
Proof.
  intros Hnd Hunk Hok e'.
  pose proof (finalized_vocab_wf e Hnd Hunk Hok) as H. fold e' in H.
  repeat split.
  - apply (wf_size e' H).
  - apply (wf_range e' H w i H0).
  - apply (wf_range e' H w i H0).
  - apply (wf_inj e' H).
  - apply (wf_dense e' H).
  - apply (wf_unk e' H).
Qed.

Lemma toy_seen_finalizes : fst (finalize_vocab toy_seen) = Ok tt.
Proof. reflexivity. Qed.

Lemma finalize_vocab_bijection_witness :
  let e' := snd (finalize_vocab toy_seen) in
  _vocab_size e' = OD.len (_vocab e') /\
  (forall w i, OD.get (_vocab e') w = Some i -> 0 <= i < _vocab_size e') /\
  (forall w w' i,
     OD.get (_vocab e') w = Some i -> OD.get (_vocab e') w' = Some i -> w = w') /\
  (forall i, 0 <= i < _vocab_size e' -> exists w, OD.get (_vocab e') w = Some i) /\
  OD.get (_vocab e') kUNK = Some (_vocab_size e' - 1).
Proof.
  exact (finalize_vocab_bijection toy_seen toy_seen_keys_NoDup
           toy_seen_keeps_no_unk toy_seen_finalizes).
Defined.

(** After such a call a word other than the unknown token's string is
    in the vocabulary exactly when it was observed with a count that
    reaches the cutoff; such a word looks up to an id of its own below
    the last, every other word to the last id. *)
Theorem finalize_vocab_membership (e : engine) (w : string) :
  NoDup (OD.keys (_doc_counts e)) ->
  ~ In kUNK (OD.keys (kept_tokens e)) ->
  fst (finalize_vocab e) = Ok tt ->
  w <> kUNK ->
  let e' := snd (finalize_vocab e) in
  (OD.mem (_vocab e') w = true <->
   exists c, OD.get (_doc_counts e) w = Some c /\ _unk_cutoff e <= c) /\
  (OD.mem (_vocab e') w = true ->
   exists i, vocab_lookup e' w = Ok i /\ 0 <= i < _vocab_size e' - 1) /\
  (OD.mem (_vocab e') w = false ->
   vocab_lookup e' w = Ok (_vocab_size e' - 1)).
Proof.
  intros Hnd Hunk Hok Hw e'.
  destruct (finalized_vocab_shape e Hnd Hunk Hok) as (Hv & Hsz & Hfin & Hks & Hmem).
  pose proof (finalized_vocab_wf e Hnd Hunk Hok) as Hwf.
  fold e' in Hv, Hsz, Hfin, Hwf.
  split; [|split].
  - rewrite od_mem_in, Hv. unfold OD.keys at 1. rewrite map_app.
    fold (OD.keys (number_ids 0 (OD.keys (kept_tokens e)))).
    rewrite keys_number_ids, in_app_iff, <- Hmem. simpl.
    split; [intros [H|[H|[]]]; [exact H | congruence] | tauto].
  - intros Hm. rewrite (vocab_lookup_wf e' w Hwf).
    unfold OD.mem in Hm. destruct (OD.get (_vocab e') w) as [i|] eqn:E; [|discriminate].
    exists i. split; [reflexivity|].
    pose proof (wf_range e' Hwf w i E) as Hi.
    destruct (Z.eq_dec i (_vocab_size e' - 1)) as [->|Hne]; [|lia].
    exfalso. apply Hw. apply (wf_inj e' Hwf w kUNK _ E (wf_unk e' Hwf)).
  - intros Hm. rewrite (vocab_lookup_wf e' w Hwf).
    unfold OD.mem in Hm. now destruct (OD.get (_vocab e') w).
Qed.

Lemma finalize_vocab_membership_witness :
  let e' := snd (finalize_vocab toy_seen) in
  (OD.mem (_vocab e') "d"%string = true <->
   exists c, OD.get (_doc_counts toy_seen) "d"%string = Some c /\
             _unk_cutoff toy_seen <= c) /\
  (OD.mem (_vocab e') "d"%string = true ->
   exists i, vocab_lookup e' "d"%string = Ok i /\ 0 <= i < _vocab_size e' - 1) /\
  (OD.mem (_vocab e') "d"%string = false ->
   vocab_lookup e' "d"%string = Ok (_vocab_size e' - 1)).
Proof.
  apply (finalize_vocab_membership toy_seen "d"%string toy_seen_keys_NoDup
           toy_seen_keeps_no_unk toy_seen_finalizes).
  discriminate.
Defined.

(** On a well-formed vocabulary [vocab_key] inverts the mapping: the
    key of a word's id is the word, the lookup of an id's key is the
    id, and every id outside the range, like the id of every unknown
    word, has the unknown token's string as its key. *)
Theorem vocab_key_round_trip (e : engine) :
  vocab_wf e ->
  (forall w i, OD.get (_vocab e) w = Some i -> vocab_key e i = w) /\
  (forall i, 0 <= i < _vocab_size e -> vocab_lookup e (vocab_key e i) = Ok i) /\
  (forall i, ~ 0 <= i < _vocab_size e -> vocab_key e i = kUNK) /\
  (forall w, OD.mem (_vocab e) w = false ->
     exists i, vocab_lookup e w = Ok i /\ vocab_key e i = kUNK).
Proof.
  intros H.
  assert (Hfound : forall w i, OD.get (_vocab e) w = Some i -> vocab_key e i = w).
  { intros w i Hg. unfold vocab_key.
    apply vocab_key_in_found; auto; [apply (wf_keys e H) | apply (wf_inj e H)]. }
  repeat split.
  - exact Hfound.
  - intros i Hi. destruct (wf_dense e H i Hi) as [w Hg].
    rewrite (Hfound w i Hg), (vocab_lookup_wf e w H), Hg. reflexivity.
  - intros i Hi. unfold vocab_key. apply vocab_key_in_missing.
    intros w Hin. apply Hi. apply (wf_range e H w).
    apply od_get_in_NoDup; [apply (wf_keys e H) | exact Hin].
  - intros w Hm. rewrite (vocab_lookup_wf e w H).
    unfold OD.mem in Hm. destruct (OD.get (_vocab e) w); [discriminate|].
    eexists. split; [reflexivity|]. apply Hfound, (wf_unk e H).
Qed.

Lemma toy_seen_vocab_wf : vocab_wf (snd (finalize_vocab toy_seen)).
Proof.
  exact (finalized_vocab_wf toy_seen toy_seen_keys_NoDup
           toy_seen_keeps_no_unk toy_seen_finalizes).
Qed.

Lemma vocab_key_round_trip_witness :
  let e := snd (finalize_vocab toy_seen) in
  (forall w i, OD.get (_vocab e) w = Some i -> vocab_key e i = w) /\
  (forall i, 0 <= i < _vocab_size e -> vocab_lookup e (vocab_key e i) = Ok i) /\
  (forall i, ~ 0 <= i < _vocab_size e -> vocab_key e i = kUNK) /\
  (forall w, OD.mem (_vocab e) w = false ->
     exists i, vocab_lookup e w = Ok i /\ vocab_key e i = kUNK).
Proof.
  exact (vocab_key_round_trip (snd (finalize_vocab toy_seen)) toy_seen_vocab_wf).
Defined.

(** On a well-formed vocabulary [tokenize] yields exactly one id for
    each raw token, in order: the id of the token's normalized form, or
    the last id when that form is not in the vocabulary. *)
Theorem tokenize_ids (e : engine) (sent : string) :
  vocab_wf e ->
  tokenize e sent =
  (map (fun ii =>
          TId (match OD.get (_vocab e) (_normalizer e ii) with
               | Some i => i
               | None => _vocab_size e - 1
               end))
       (_tokenizer e sent),
   None).
Proof.
  intros H. unfold tokenize.
  induction (_tokenizer e sent) as [|ii raw IH]; simpl; auto.
  now rewrite (wf_final e H), (vocab_lookup_wf e _ H), IH.
Qed.

Lemma tokenize_ids_witness :
  let e := snd (finalize_vocab toy_seen) in
  tokenize e "A zebra"%string =
  (map (fun ii =>
          TId (match OD.get (_vocab e) (_normalizer e ii) with
               | Some i => i
               | None => _vocab_size e - 1
               end))
       (_tokenizer e "A zebra"%string),
   None).
Proof.
  exact (tokenize_ids (snd (finalize_vocab toy_seen)) "A zebra"%string toy_seen_vocab_wf).
Defined.

(** ** Frequencies over the whole training set *)

Lemma fd_get_le_N (d : OD.t Z) (w : string) :
  (forall k c, In (k, c) d -> 0 <= c) ->
  0 <= fd_get d w <= fd_N d.
Proof.
  unfold fd_get, fd_N. induction d as [|[k c] d IH]; simpl; intros H; [lia|].
  assert (Hc : 0 <= c) by (apply (H k); now left).
  assert (IH' : 0 <= match OD.get d w with Some c0 => c0 | None => 0 end
                <= fold_right Z.add 0 (OD.values d))
    by (apply IH; intros k' c' Hin; apply (H k'); now right).
  destruct (String.eqb k w); lia.
Qed.

(** [global_freq] divides by the sum of all the counts: it raises
    [ZeroDivisionError] while that sum is 0, as on a new instance, and
    otherwise, when no count is negative, returns the share of the
    word's count, a number between 0 and 1. *)
Theorem global_freq_range (e : engine) (word : Z) :
  (forall k c, In (k, c) (_doc_counts e) -> 0 <= c) ->
  (fd_N (_doc_counts e) = 0 -> global_freq e word = Raise ZeroDivisionError) /\
  (fd_N (_doc_counts e) <> 0 ->
   exists x : R,
     global_freq e word = Ok x /\
     x = (IZR (fd_get (_doc_counts e) (vocab_key e word)) / IZR (fd_N (_doc_counts e)))%R /\
     (0 <= x <= 1)%R).
Proof.
  intros Hpos. unfold global_freq. split.
  - intros ->. reflexivity.
  - intros Hn. destruct (Z.eqb_spec (fd_N (_doc_counts e)) 0); [contradiction|].
    eexists. split; [reflexivity|]. split; [reflexivity|].
    pose proof (fd_get_le_N (_doc_counts e) (vocab_key e word) Hpos) as [H0 H1].
    assert (HN : (0 < IZR (fd_N (_doc_counts e)))%R) by (apply IZR_lt; lia).
    split.
    + apply Rmult_le_pos; [now apply IZR_le | left; now apply Rinv_0_lt_compat].
    + apply (Rmult_le_reg_r (IZR (fd_N (_doc_counts e)))); [exact HN|].
      unfold Rdiv. rewrite Rmult_assoc, Rinv_l, Rmult_1_r, Rmult_1_l by lra.
      now apply IZR_le.
Qed.

Lemma global_freq_range_witness :
  (fd_N (_doc_counts toy_a_docs) = 0 ->
   global_freq toy_a_docs 0 = Raise ZeroDivisionError) /\
  (fd_N (_doc_counts toy_a_docs) <> 0 ->
   exists x : R,
     global_freq toy_a_docs 0 = Ok x /\
     x = (IZR (fd_get (_doc_counts toy_a_docs) (vocab_key toy_a_docs 0)) /
          IZR (fd_N (_doc_counts toy_a_docs)))%R /\
     (0 <= x <= 1)%R).
Proof.
  apply (global_freq_range toy_a_docs 0).
  intros k c. vm_compute.
  intros [H|[H|[]]]; injection H as _ <-; discriminate.
Defined.

(** ** The sign of the inverse document frequency *)

(** With at least one document and a positive document frequency, the
    inverse document frequency is positive when the word is missing
    from at least two documents, zero when it is missing from exactly
    one, and negative when it is in every document (or counted more
    often than there are documents). *)
Theorem inv_df_sign (total_docs doc_freq : Z) :
  1 <= total_docs -> 1 <= doc_freq ->
  exists x : R,
    inv_df total_docs doc_freq = Ok x /\
    (1 + doc_freq < total_docs -> (0 < x)%R) /\
    (1 + doc_freq = total_docs -> x = 0%R) /\
    (total_docs < 1 + doc_freq -> (x < 0)%R).
Proof.
  intros Hn Hd. rewrite inv_df_positive by assumption.
  eexists. split; [reflexivity|].
  assert (Hp : (0 < IZR (1 + doc_freq))%R) by (apply IZR_lt; lia).
  assert (Hq : (0 < IZR total_docs)%R) by (apply IZR_lt; lia).
  repeat split.
  - intros H. apply log10_pos.
    apply (Rmult_lt_reg_r (IZR (1 + doc_freq))); [exact Hp|].
    unfold Rdiv. rewrite Rmult_assoc, Rinv_l, Rmult_1_r, Rmult_1_l by lra.
    now apply IZR_lt.
  - intros <-. unfold log10, Rdiv at 2. rewrite Rinv_r by lra.
    rewrite ln_1. unfold Rdiv. apply Rmult_0_l.
  - intros H. apply log10_neg.
    + now apply Rdiv_lt_0_compat.
    + apply (Rmult_lt_reg_r (IZR (1 + doc_freq))); [exact Hp|].
      unfold Rdiv. rewrite Rmult_assoc, Rinv_l, Rmult_1_r, Rmult_1_l by lra.
      now apply IZR_lt.
Qed.

Lemma inv_df_sign_witness :
  exists x : R,
    inv_df 3 2 = Ok x /\
    (1 + 2 < 3 -> (0 < x)%R) /\
    (1 + 2 = 3 -> x = 0%R) /\
    (3 < 1 + 2 -> (x < 0)%R).
Proof.
  apply (inv_df_sign 3 2); lia.
Defined.

(** ** Queries *)

Lemma dot_zeros_l (n : nat) (b : vector) : dot (zeros n) b = 0%R.
Proof.
  revert b. induction n as [|n IH]; intros b; [apply dot_nil_l|].
  destruct b as [|y b]; [apply dot_nil_r|].
  change (zeros (S n)) with (0%R :: zeros n). rewrite dot_cons, IH. ring.
Qed.

Lemma cosine_zeros_l (n : nat) (b : vector) : cosine (zeros n) b = 0%R.
Proof.
  unfold cosine, norm. rewrite dot_zeros_l, sqrt_0.
  destruct (Req_dec_T 0 0) as [_|H]; [reflexivity | contradiction].
Qed.

Lemma argmax_from_no_greater (l : list R) :
  forall (best_i : nat) (best : R) (i : nat),
    (forall x, In x l -> ~ (best < x)%R) ->
    argmax_from best_i best i l = best_i.
Proof.
  induction l as [|x l IH]; intros bi b i H; simpl; auto.
  destruct (Rlt_dec b x) as [Hlt|_].
  - exfalso. apply (H x); [now left | exact Hlt].
  - apply IH. intros y Hy. apply H. now right.
Qed.

(** [embed] checks neither flag: for a text without any word of the
    vocabulary it returns the zero vector, and [__call__] then gives
    every row the similarity 0 and answers with the first question and
    answer, at confidence 0.  This needs no table of document
    frequencies. *)
Theorem call_unknown_only (e : engine) (question q0 a0 : string) (m : ndarray2) :
  1 <= _vocab_size e ->
  in_vocab_tokens e question = [] ->
  _doc_vectors e = Some m ->
  shape0 m <> 0 ->
  shape1 m = _vocab_size e ->
  nth_error (questions e) 0 = Some q0 ->
  nth_error (answers e) 0 = Some a0 ->
  embed e question = Ok (zeros (Z.to_nat (_vocab_size e))) /\
  call e question 1 =
    Ok {| g_question := q0; g_guess := a0; g_confidence := 0%R |}.
Proof.
  intros Hsz Htok Hm Hrows Hcols Hq Ha.
  assert (He : embed e question = Ok (zeros (Z.to_nat (_vocab_size e)))).
  { unfold embed. destruct (Z.ltb_spec (_vocab_size e) 0); [lia|].
    fold (in_vocab_tokens e question). now rewrite Htok. }
  split; [exact He|].
  unfold call. rewrite He, Hm. cbn [rbind Z.eqb Pos.eqb].
  unfold find_best_match, cosine_similarity_row.
  rewrite length_zeros.
  destruct (Nat.eqb_spec (Z.to_nat (_vocab_size e)) 0); [lia|].
  destruct (Z.eqb_spec (shape0 m) 0); [contradiction|].
  rewrite Hcols, Z2Nat.id, Z.eqb_refl by lia.
  destruct (mrows m) as [|row rows] eqn:Er.
  { exfalso. apply Hrows. unfold shape0. now rewrite Er. }
  cbn [map argmax rbind].
  rewrite argmax_from_no_greater.
  - cbn [rbind fst snd]. unfold index. rewrite Hq, Ha. cbn [rbind nth].
    now rewrite cosine_zeros_l.
  - intros x Hx. apply in_map_iff in Hx. destruct Hx as (r & <- & _).
    rewrite !cosine_zeros_l. apply Rlt_irrefl.
Qed.

Lemma call_unknown_only_witness :
  embed saved_engine "zebra"%string = Ok (zeros (Z.to_nat (_vocab_size saved_engine))) /\
  call saved_engine "zebra"%string 1 =
    Ok {| g_question := "b"%string; g_guess := "B"%string; g_confidence := 0%R |}.
Proof.
  apply (call_unknown_only saved_engine "zebra"%string "b"%string "B"%string
           {| shape1 := 2; mrows := [zeros 2] |});
    try reflexivity.
  - cbn. lia.
  - discriminate.
Defined.

Lemma fd_keys_not_nil (l : list string) :
  l <> [] -> OD.keys (FreqDist l) <> [].
Proof.
  destruct l as [|t l]; [contradiction|]. intros _ E.
  assert (H : In t (OD.keys (FreqDist (t :: l)))).
  { apply fd_fold_keys_in. right. now left. }
  rewrite E in H. exact H.
Qed.

(** On every instance the class can build, [embed] raises for a text
    that holds a word of the vocabulary, and so does [__call__]: the
    query interface answers only queries made of unknown words. *)
Theorem embed_known_word_raises (e : engine) (text : string) :
  reachable e ->
  in_vocab_tokens e text <> [] ->
  (exists x, embed e text = Raise x) /\
  (forall n, exists x, call e text n = Raise x).
Proof.
  intros Hr Htok.
  assert (He : exists x, embed e text = Raise x).
  { unfold embed. destruct (_vocab_size e <? 0); [eauto|].
    fold (in_vocab_tokens e text).
    pose proof (fd_keys_not_nil _ Htok) as Hk.
    destruct (OD.keys (FreqDist (in_vocab_tokens e text))) as [|w ws]; [contradiction|].
    simpl. unfold embed_word.
    destruct (vocab_lookup e w) as [i|x]; simpl; [|eauto].
    unfold inv_docfreq. rewrite (reachable_no_doc_freq e Hr).
    destruct (_docs_final e); simpl; eauto. }
  split; [exact He|].
  intros n. destruct He as [x He]. unfold call. rewrite He.
  destruct (n =? 1); simpl; eauto.
Qed.

Lemma embed_known_word_raises_witness :
  (exists x, embed toy_a_docs "a zebra"%string = Raise x) /\
  (forall n, exists x, call toy_a_docs "a zebra"%string n = Raise x).
Proof.
  apply (embed_known_word_raises toy_a_docs "a zebra"%string toy_a_docs_reachable).
  discriminate.
Defined.


(** ** Saving and loading what was not trained *)

Lemma keeps_then {X A B : Type} (f : engine -> X) (m : M A) (k : A -> M B) :
  keeps f m -> (forall a, keeps f (k a)) -> keeps f (and_then m k).
Proof.
  intros Hm Hk e. unfold and_then. specialize (Hm e).
  destruct (m e) as [[a|x] e']; simpl in *; [|assumption].
  now rewrite Hk.
Qed.

Lemma keeps_each {X A : Type} (f : engine -> X) (body : A -> M unit) (l : list A) :
  (forall a, keeps f (body a)) -> keeps f (for_each body l).
Proof.
  intros Hb. induction l as [|a l IH]; simpl.
  - intros e. reflexivity.
  - apply keeps_then; auto.
Qed.

Lemma matrix_vocab_seen word count :
  keeps _doc_vectors (fun e => vocab_seen e word count).
Proof. intros e. unfold vocab_seen. now destruct (_vocab_final e). Qed.

Lemma matrix_finalize_vocab : keeps _doc_vectors finalize_vocab.
Proof.
  intros e. unfold finalize_vocab.
  match goal with |- context [if ?b then _ else _] => destruct b end; reflexivity.
Qed.

Lemma matrix_scan_document text :
  keeps _doc_vectors (fun e => scan_document e text).
Proof.
  intros e. unfold scan_document.
  destruct (_vocab_final e), (_docs_final e); reflexivity.
Qed.

Lemma matrix_observe_question question :
  keeps _doc_vectors (observe_question question).
Proof.
  intros e. unfold observe_question.
  destruct (tokenize e question) as [items x].
  assert (H : keeps _doc_vectors (for_each vocab_seen_token items)).
  { apply keeps_each. intros [w|i] e0; simpl; [apply matrix_vocab_seen | reflexivity]. }
  specialize (H e).
  destruct (for_each vocab_seen_token items e) as [[u|y] e']; simpl in *; auto.
  now destruct x.
Qed.

(** Without the table [train] stops before it creates the matrix. *)
Lemma train_no_matrix (e : engine) (qs ans : list string) :
  _doc_freq e = None ->
  _doc_vectors (snd (train qs ans e)) = _doc_vectors e.
Proof.
  intros Hf. unfold train. unfold and_then at 1. cbn [snd fst].
  set (e1 := set_questions_answers e qs ans).
  assert (F1 : _doc_freq e1 = None) by exact Hf.
  change (_doc_vectors e) with (_doc_vectors e1). clearbody e1. clear Hf.
  unfold and_then at 1.
  pose proof (keeps_each _doc_vectors observe_question qs matrix_observe_question e1) as M2.
  pose proof (keeps_for_each observe_question qs keeps_observe_question e1) as K2.
  destruct (for_each observe_question qs e1) as [[u2|x2] e2]; simpl in M2, K2;
    [|exact M2].
  rewrite <- M2. assert (F2 : _doc_freq e2 = None) by congruence.
  clear M2 K2 F1. unfold and_then at 1.
  pose proof (matrix_finalize_vocab e2) as M3.
  pose proof (keeps_finalize_vocab e2) as K3.
  pose proof (finalize_vocab_not_empty e2) as V3.
  destruct (finalize_vocab e2) as [[u3|x3] e3]; simpl in M3, K3, V3; [|exact M3].
  rewrite <- M3. assert (F3 : _doc_freq e3 = None) by congruence.
  clear M3 K3 F2. unfold and_then at 1.
  pose proof (keeps_each _doc_vectors (fun q e => scan_document e q) qs
                (fun q => matrix_scan_document q) e3) as M4.
  pose proof (keeps_for_each (fun q e => scan_document e q) qs
                (fun q => keeps_scan_document q) e3) as K4.
  pose proof (scan_all_keeps_vocab qs e3) as V4.
  destruct (for_each (fun q e => scan_document e q) qs e3) as [[u4|x4] e4];
    simpl in M4, K4, V4; [|exact M4].
  rewrite <- M4. assert (F4 : _doc_freq e4 = None) by congruence.
  assert (N4 : _vocab e4 <> []) by (rewrite V4; exact V3).
  unfold and_then at 1.
  pose proof (finalize_docs_raises e4 F4 N4) as R5.
  destruct (finalize_docs e4) as [[u5|x5] e5] eqn:E5; simpl in R5; [discriminate|].
  unfold finalize_docs in E5. injection E5 as _ <-. reflexivity.
Qed.

Lemma built_reachable (e : engine) : built e -> reachable e.
Proof. induction 1; constructor; assumption. Qed.

Lemma built_no_matrix (e : engine) : built e -> _doc_vectors e = None.
Proof.
  induction 1 as [| e w c _ IH | e _ IH | e t _ IH | e _ IH | e qs ans Hb IH];
    [reflexivity | rewrite <- IH ..].
  - apply (matrix_vocab_seen w c e).
  - apply matrix_finalize_vocab.
  - apply (matrix_scan_document t e).
  - reflexivity.
  - apply train_no_matrix, reachable_no_doc_freq, built_reachable, Hb.
Qed.

(** Saving an instance that was built without [load] and loading the
    files back raises [AttributeError]: [train] never created the
    matrix, [save] pickled [None], and [load] asks it for its shape.
    The call has by then replaced the vocabulary and marked it final,
    and has not marked the documents final. *)
Theorem save_then_load_raises
    (save_questions_and_answers : engine -> files -> files)
    (load_questions_and_answers : engine -> files -> result (list string * list string))
    (e e0 : engine) (fs : files) (qs ans : list string) :
  built e ->
  filename e0 = filename e ->
  load_questions_and_answers e0 (save save_questions_and_answers e fs) = Ok (qs, ans) ->
  let r := load load_questions_and_answers (save save_questions_and_answers e fs) e0 in
  fst r = Raise AttributeError /\
  _doc_vectors (snd r) = None /\
  _vocab (snd r) = _vocab e /\
  _vocab_final (snd r) = true /\
  _docs_final (snd r) = _docs_final e0.
Proof.
  intros Hb Hname Hqa.
  pose proof (read_saved_vocab save_questions_and_answers e fs) as Rv.
  pose proof (read_saved_array save_questions_and_answers e fs) as Ra.
  pose proof (read_saved_counts save_questions_and_answers e fs) as Rc.
  rewrite (built_no_matrix e Hb) in Ra.
  set (fs' := save save_questions_and_answers e fs) in *.
  unfold load, and_then. rewrite Hqa.
  fields. rewrite Hname, Rv.
  fields. rewrite Hname, Ra.
  fields. rewrite Hname, Rc.
  fields. repeat split.
Qed.

Lemma toy_a_docs_built : built toy_a_docs.
Proof.
  unfold toy_a_docs, toy_a.
  apply built_finalize_docs, built_scan_document, built_finalize_vocab.
  apply (built_vocab_seen (snd (vocab_seen toy "a" 1)) "a" 1).
  apply (built_vocab_seen toy "a" 1).
  apply built_init.
Qed.

Lemma save_then_load_raises_witness :
  let fs := save sample_save_questions_and_answers toy_a_docs [] in
  let r := load sample_load_questions_and_answers fs (init "toy"%string 10 words lower 2) in
  fst r = Raise AttributeError /\
  _doc_vectors (snd r) = None /\
  _vocab (snd r) = _vocab toy_a_docs /\
  _vocab_final (snd r) = true /\
  _docs_final (snd r) = _docs_final (init "toy"%string 10 words lower 2).
Proof.
  apply (save_then_load_raises
           sample_save_questions_and_answers sample_load_questions_and_answers
           toy_a_docs (init "toy"%string 10 words lower 2) [] [] []).
  - exact toy_a_docs_built.
  - reflexivity.
  - reflexivity.
Defined.

(** What [load] does with files that hold a mapping, an array and
    counts: it takes all three, sets the size to that of the mapping
    and the number of documents to the number of rows, and marks both
    phases final; it then raises exactly when the number of columns
    differs from the size, leaving the instance loaded all the same. *)
Theorem load_outcome
    (load_questions_and_answers : engine -> files -> result (list string * list string))
    (fs : files) (e0 : engine) (qs ans : list string)
    (d c : OD.t Z) (m : ndarray2) :
  load_questions_and_answers e0 fs = Ok (qs, ans) ->
  OD.get fs (vocab_path (filename e0)) = Some (PDict d) ->
  OD.get fs (tfidf_path (filename e0)) = Some (PArray (Some m)) ->
  OD.get fs (doccounts_path (filename e0)) = Some (PDict c) ->
  let r := load load_questions_and_answers fs e0 in
  fst r = (if OD.len d =? shape1 m then Ok tt else Raise AssertionError) /\
  snd r =
    {| _vocab_size := OD.len d;
       _max_vocab_size := _max_vocab_size e0;
       _total_docs := shape0 m;
       _doc_vectors := Some m;
       _vocab_final := true;
       _docs_final := true;
       _vocab := d;
       _unk_cutoff := _unk_cutoff e0;
       _tokenizer := _tokenizer e0;
       _normalizer := _normalizer e0;
       filename := filename e0;
       _doc_counts := c;
       _doc_freq := _doc_freq e0;
       questions := qs;
       answers := ans |}.
Proof.
  intros Hqa Hv Ha Hc.
  unfold load, and_then, read_dict, read_array. rewrite Hqa.
  fields. rewrite Hv. fields. rewrite Ha. fields. rewrite Hc. fields.
  destruct (OD.len d =? shape1 m); split; reflexivity.
Qed.

Lemma load_outcome_witness :
  let fs := save sample_save_questions_and_answers saved_engine [] in
  let e0 := init "one"%string 5 words lower 3 in
  let m := {| shape1 := 2; mrows := [zeros 2] |} in
  let r := load sample_load_questions_and_answers fs e0 in
  fst r = (if OD.len (_vocab saved_engine) =? shape1 m then Ok tt
           else Raise AssertionError) /\
  snd r =
    {| _vocab_size := OD.len (_vocab saved_engine);
       _max_vocab_size := _max_vocab_size e0;
       _total_docs := shape0 m;
       _doc_vectors := Some m;
       _vocab_final := true;
       _docs_final := true;
       _vocab := _vocab saved_engine;
       _unk_cutoff := _unk_cutoff e0;
       _tokenizer := _tokenizer e0;
       _normalizer := _normalizer e0;
       filename := filename e0;
       _doc_counts := _doc_counts saved_engine;
       _doc_freq := _doc_freq e0;
       questions := ["b"%string];
       answers := ["B"%string] |}.
Proof.
  apply (load_outcome sample_load_questions_and_answers
           (save sample_save_questions_and_answers saved_engine [])
           (init "one"%string 5 words lower 3) ["b"%string] ["B"%string]);
    reflexivity.
Defined.

(** ** [doc_tfidf] *)

Lemma token_eqb_spec (a b : token) : reflect (a = b) (token_eqb a b).
Proof.
  destruct a as [s|i], b as [s'|i']; simpl; try (constructor; discriminate).
  - destruct (String.eqb_spec s s'); constructor; congruence.
  - destruct (Z.eqb_spec i i'); constructor; congruence.
Qed.

Lemma key_eqb_spec (a b : Z * string) : reflect (a = b) (key_eqb a b).
Proof.
  destruct a as [i s], b as [i' s']. unfold key_eqb. simpl.
  destruct (Z.eqb_spec i i'), (String.eqb_spec s s'); simpl; constructor; congruence.
Qed.

Section KeyedDict.

Context {K V : Type} (eqb : K -> K -> bool).
Hypothesis eqb_spec : forall a b, reflect (a = b) (eqb a b).

Lemma kd_get_set_eq (d : KD.t) (k : K) (v : V) :
  KD.get eqb (KD.set eqb d k v) k = Some v.
Proof.
  induction d as [|[k' v'] d IH]; simpl.
  - destruct (eqb_spec k k); [reflexivity | contradiction].
  - destruct (eqb_spec k' k) as [->|Hne]; simpl.
    + destruct (eqb_spec k k); [reflexivity | contradiction].
    + destruct (eqb_spec k' k); [contradiction | exact IH].
Qed.

Lemma kd_get_set_neq (d : KD.t) (k k' : K) (v : V) :
  k <> k' -> KD.get eqb (KD.set eqb d k v) k' = KD.get eqb d k'.
Proof.
  intros Hne. induction d as [|[k0 v0] d IH]; simpl.
  - destruct (eqb_spec k k'); [contradiction | reflexivity].
  - destruct (eqb_spec k0 k) as [->|Hk]; simpl.
    + destruct (eqb_spec k k'); [contradiction | reflexivity].
    + destruct (eqb_spec k0 k'); auto.
Qed.

End KeyedDict.

Lemma tc_get_set (d : list (token * Z)) (t t' : token) (c : Z) :
  tc_get (KD.set token_eqb d t c) t' = if token_eqb t t' then c else tc_get d t'.
Proof.
  unfold tc_get. destruct (token_eqb_spec t t') as [<-|Hne].
  - now rewrite (kd_get_set_eq token_eqb token_eqb_spec).
  - now rewrite (kd_get_set_neq token_eqb token_eqb_spec).
Qed.

Lemma tc_N_set (d : list (token * Z)) (t : token) (c : Z) :
  tc_N (KD.set token_eqb d t c) = tc_N d - tc_get d t + c.
Proof.
  unfold tc_N, tc_get. induction d as [|[t' c'] d IH]; simpl.
  - lia.
  - destruct (token_eqb t' t); simpl; lia.
Qed.

Lemma token_counts_fold (ids : list Z) :
  forall (d : list (token * Z)) (i : Z),
    let d' := fold_left (fun d t => KD.set token_eqb d t (tc_get d t + 1))
                (map TId ids) d in
    tc_get d' (TId i) = tc_get d (TId i) + count_id i ids /\
    tc_N d' = tc_N d + Z.of_nat (List.length ids).
Proof.
  induction ids as [|j ids IH]; intros d i.
  - simpl. lia.
  - cbn [map fold_left List.length count_id].
    destruct (IH (KD.set token_eqb d (TId j) (tc_get d (TId j) + 1)) i) as [Hg Hn].
    cbv zeta in Hg, Hn. split.
    + rewrite Hg, tc_get_set. simpl token_eqb.
      destruct (Z.eqb_spec j i) as [->|]; lia.
    + rewrite Hn, tc_N_set. lia.
Qed.

(** The frequency the counter of [doc_tfidf] gives an id. *)
Lemma tc_freq_ids (ids : list Z) (i : Z) :
  ids <> [] ->
  tc_freq (token_counts (map TId ids)) (TId i) =
  (IZR (count_id i ids) / IZR (Z.of_nat (List.length ids)))%R.
Proof.
  intros Hne. unfold tc_freq, token_counts.
  destruct (token_counts_fold ids [] i) as [Hg Hn]. cbv zeta in Hg, Hn.
  rewrite Hg, Hn. change (tc_N []) with 0. change (tc_get [] (TId i)) with 0.
  destruct ids as [|j ids]; [contradiction|].
  destruct (Z.eqb_spec (0 + Z.of_nat (List.length (j :: ids))) 0) as [E|_].
  - simpl in E. lia.
  - reflexivity.
Qed.

Lemma tokenize_loop_wf (e : engine) (raw : list string) :
  vocab_wf e ->
  tokenize_loop e raw =
  (map TId (map (fun ii => word_id e (_normalizer e ii)) raw), None).
Proof.
  intros H. induction raw as [|ii raw IH]; simpl; auto.
  rewrite (wf_final e H), (vocab_lookup_wf e _ H), IH. reflexivity.
Qed.

Lemma doc_tfidf_loop_spec (e : engine) (table : list (Z * Z))
    (counts : list (token * Z)) :
  vocab_wf e -> statistics_ready e table ->
  forall (raw : list string) (d : list ((Z * string) * R)),
    exists d' : list ((Z * string) * R),
      doc_tfidf_loop e counts raw d = Ok d' /\
      (forall ii, In ii raw ->
         KD.get key_eqb d' (word_id e ii, ii) =
         Some (tc_freq counts (TId (word_id e ii)) * idf_of e (word_id e ii))%R) /\
      (forall key, (forall ii, In ii raw -> key <> (word_id e ii, ii)) ->
         KD.get key_eqb d' key = KD.get key_eqb d key).
Proof.
  intros Hwf Hr. induction raw as [|ii raw IH]; intros d.
  - exists d. simpl. repeat split; auto. intros ii [].
  - cbn [doc_tfidf_loop]. unfold doc_tfidf_word.
    rewrite (vocab_lookup_wf e ii Hwf). fold (word_id e ii). cbn [rbind].
    rewrite (inv_docfreq_ready e table _ Hr). cbn [rbind].
    set (v := (tc_freq counts (TId (word_id e ii)) * idf_of e (word_id e ii))%R).
    destruct (IH (KD.set key_eqb d (word_id e ii, ii) v)) as (d' & Hd' & Hin & Hout).
    exists d'. split; [exact Hd'|]. split.
    + intros ii' [<-|Hii'].
      * destruct (in_dec string_dec ii raw) as [Hi|Hi]; [now apply Hin|].
        rewrite Hout.
        -- apply (kd_get_set_eq key_eqb key_eqb_spec).
        -- intros ii' Hii' E. injection E as _ ->. contradiction.
      * now apply Hin.
    + intros key Hkey. rewrite Hout.
      * apply (kd_get_set_neq key_eqb key_eqb_spec).
        intros E. apply (Hkey ii); [now left | now symmetry].
      * intros ii' Hii'. apply Hkey. now right.
Qed.

(** With a well-formed vocabulary and the statistics in place
    [doc_tfidf] returns a dictionary with one key for each distinct raw
    token, paired with the id of that raw token; the value is the share
    of that id among the ids of the normalized tokens times the inverse
    document frequency of the id.  The raw token is looked up without
    the normalizer, the shares are counted with it. *)
Theorem doc_tfidf_spec (e : engine) (table : list (Z * Z)) (doc : string) :
  vocab_wf e -> statistics_ready e table ->
  exists d : list ((Z * string) * R),
    doc_tfidf e doc = Ok d /\
    (forall ii, In ii (_tokenizer e doc) ->
       KD.get key_eqb d (word_id e ii, ii) =
       Some (id_frequency e doc (word_id e ii) * idf_of e (word_id e ii))%R) /\
    (forall key v, KD.get key_eqb d key = Some v ->
       exists ii, In ii (_tokenizer e doc) /\ key = (word_id e ii, ii)).
Proof.
  intros Hwf Hr. unfold doc_tfidf, tokenize.
  rewrite (sr_docs_final e table Hr), (tokenize_loop_wf e _ Hwf).
  fold (doc_ids e doc).
  destruct (doc_tfidf_loop_spec e table (token_counts (map TId (doc_ids e doc)))
              Hwf Hr (_tokenizer e doc) []) as (d & Hd & Hin & Hout).
  exists d. split; [exact Hd|]. split.
  - intros ii Hii. rewrite (Hin ii Hii). f_equal. f_equal.
    unfold id_frequency. apply tc_freq_ids.
    unfold doc_ids. destruct (_tokenizer e doc); [contradiction | discriminate].
  - intros key v Hg.
    destruct (in_dec (fun a b => reflect_dec _ _ (key_eqb_spec a b)) key
                (map (fun ii => (word_id e ii, ii)) (_tokenizer e doc))) as [Hk|Hk].
    + apply in_map_iff in Hk. destruct Hk as (ii & <- & Hii). eauto.
    + rewrite Hout in Hg; [discriminate|].
      intros ii Hii ->. apply Hk. apply in_map_iff. eauto.
Qed.

Lemma toy_trained_wf : vocab_wf toy_trained.
Proof.
  pose proof toy_trained_ready as H.
  constructor.
  - reflexivity.
  - cbn. repeat constructor; simpl; intuition discriminate.
  - reflexivity.
  - apply (sr_range _ _ H).
  - apply (sr_inj _ _ H).
  - intros i Hi. cbn in Hi.
    destruct (Z.eq_dec i 0) as [->|Hne].
    + exists "a"%string. reflexivity.
    + exists kUNK. replace i with 1 by lia. reflexivity.
  - reflexivity.
Qed.

Lemma doc_tfidf_spec_witness :
  exists d : list ((Z * string) * R),
    doc_tfidf toy_trained "a b A"%string = Ok d /\
    (forall ii, In ii (_tokenizer toy_trained "a b A"%string) ->
       KD.get key_eqb d (word_id toy_trained ii, ii) =
       Some (id_frequency toy_trained "a b A"%string (word_id toy_trained ii) *
             idf_of toy_trained (word_id toy_trained ii))%R) /\
    (forall key v, KD.get key_eqb d key = Some v ->
       exists ii, In ii (_tokenizer toy_trained "a b A"%string) /\
                  key = (word_id toy_trained ii, ii)).
Proof.
  exact (doc_tfidf_spec toy_trained [(0, 4); (1, 2)] "a b A"%string
           toy_trained_wf toy_trained_ready).
Defined.

(** In "a b A" the raw token "A" is unknown, so its key carries the
    last id, while its normalized form "a" counts for the id 0: the ids
    of the document are 0, 1, 0. *)
Example doc_tfidf_raw_and_normalized :
  word_id toy_trained "A"%string = 1 /\
  doc_ids toy_trained "a b A"%string = [0; 1; 0].
Proof. split; reflexivity. Qed.

(** On every instance the class can build, [doc_tfidf] fails its
    assertion while the documents are not final; afterwards it returns
    the empty dictionary for a text without tokens and raises for every
    other text. *)
Theorem doc_tfidf_reachable (e : engine) (doc : string) :
  reachable e ->
  (_docs_final e = false -> doc_tfidf e doc = Raise AssertionError) /\
  (_docs_final e = true -> _tokenizer e doc = [] -> doc_tfidf e doc = Ok []) /\
  (_tokenizer e doc <> [] -> exists x, doc_tfidf e doc = Raise x).
Proof.
  intros Hr. unfold doc_tfidf, tokenize. split; [|split].
  - intros ->. reflexivity.
  - intros -> ->. reflexivity.
  - intros Hne. destruct (_docs_final e) eqn:Hd; [|eauto].
    destruct (tokenize_loop e (_tokenizer e doc)) as [items [x|]]; [eauto|].
    destruct (_tokenizer e doc) as [|ii raw]; [contradiction|].
    cbn [doc_tfidf_loop]. unfold doc_tfidf_word.
    destruct (vocab_lookup e ii) as [ww|x]; cbn [rbind]; [|eauto].
    unfold inv_docfreq. rewrite (reachable_no_doc_freq e Hr), Hd.
    cbn [rbind]. eauto.
Qed.

Lemma doc_tfidf_reachable_witness :
  (_docs_final toy_a_docs = false -> doc_tfidf toy_a_docs "a"%string = Raise AssertionError) /\
  (_docs_final toy_a_docs = true -> _tokenizer toy_a_docs "a"%string = [] ->
   doc_tfidf toy_a_docs "a"%string = Ok []) /\
  (_tokenizer toy_a_docs "a"%string <> [] ->
   exists x, doc_tfidf toy_a_docs "a"%string = Raise x).
Proof.
  exact (doc_tfidf_reachable toy_a_docs "a"%string toy_a_docs_reachable).
Defined.

(** ** When [finalize_vocab] succeeds, and the order of the ids *)

Lemma filter_length_perm {A : Type} (f : A -> bool) (l l' : list A) :
  Permutation l l' -> List.length (filter f l) = List.length (filter f l').
Proof.
  induction 1 as [| x l l' _ IH | x y l | l l' l'' _ IH1 _ IH2]; simpl; auto.
  - destruct (f x); simpl; auto.
  - destruct (f x), (f y); reflexivity.
  - congruence.
Qed.

Lemma filter_firstn_length_le {A : Type} (f : A -> bool) (n : nat) (l : list A) :
  (List.length (filter f (firstn n l)) <= List.length (filter f l))%nat.
Proof.
  revert n. induction l as [|x l IH]; intros [|n]; simpl; try lia.
  specialize (IH n). destruct (f x); simpl; lia.
Qed.

Lemma kept_tokens_in_counts (e : engine) (w : string) :
  In w (OD.keys (kept_tokens e)) -> In w (OD.keys (_doc_counts e)).
Proof.
  unfold kept_tokens, OD.keys. intros H. apply in_map_iff in H.
  destruct H as (p & <- & Hp). apply filter_In in Hp. destruct Hp as [Hp _].
  destruct (slice_to_firstn (sorted_desc (_doc_counts e)) (_max_vocab_size e)) as [m Hm].
  rewrite Hm in Hp. apply in_map.
  eapply Permutation_in; [apply sorted_desc_perm|].
  rewrite <- (firstn_skipn m (sorted_desc (_doc_counts e))).
  apply in_or_app. now left.
Qed.

(** When the string of the unknown token was never observed,
    [finalize_vocab] succeeds exactly when the number of observed words
    that reach the cutoff is at most [_max_vocab_size - 2]; the size it
    stores is then that number plus one. *)
Theorem finalize_vocab_succeeds_iff (e : engine) :
  NoDup (OD.keys (_doc_counts e)) ->
  OD.get (_doc_counts e) kUNK = None ->
  (fst (finalize_vocab e) = Ok tt <-> qualifying e + 1 < _max_vocab_size e) /\
  (fst (finalize_vocab e) = Ok tt ->
   _vocab_size (snd (finalize_vocab e)) = qualifying e + 1).
Proof.
  intros Hnd Hu.
  assert (Hunk : ~ In kUNK (OD.keys (kept_tokens e))).
  { intros H. apply kept_tokens_in_counts in H.
    apply od_get_none_not_in in Hu. contradiction. }
  destruct (finalize_vocab_mapping e Hnd Hunk) as [_ Hsz].
  assert (Hq : qualifying e =
               Z.of_nat (List.length (filter (count_ge (_unk_cutoff e))
                                        (sorted_desc (_doc_counts e))))).
  { unfold qualifying. f_equal. apply filter_length_perm.
    apply Permutation_sym, sorted_desc_perm. }
  assert (Hsucc : fst (finalize_vocab e) = Ok tt ->
                  Z.of_nat (List.length (kept_tokens e)) = qualifying e).
  { intros Hok. rewrite Hq. now rewrite (kept_tokens_on_success e Hnd Hok). }
  split; [split|].
  - intros Hok.
    destruct (finalize_vocab_outcome e) as [(_ & _ & Hlt)|(Hr & _)];
      [|rewrite Hok in Hr; discriminate].
    rewrite <- (Hsucc Hok). lia.
  - intros Hlt.
    destruct (finalize_vocab_outcome e) as [(Hok & _)|(_ & _ & Hge)]; [exact Hok|].
    exfalso. rewrite Hsz in Hge.
    assert (Z.of_nat (List.length (kept_tokens e)) <= qualifying e); [|lia].
    rewrite Hq. unfold kept_tokens.
    destruct (slice_to_firstn (sorted_desc (_doc_counts e)) (_max_vocab_size e)) as [m ->].
    apply inj_le, filter_firstn_length_le.
  - intros Hok. rewrite Hsz, (Hsucc Hok). reflexivity.
Qed.

Lemma toy_seen_no_unk : OD.get (_doc_counts toy_seen) kUNK = None.
Proof. reflexivity. Qed.

Lemma finalize_vocab_succeeds_iff_witness :
  (fst (finalize_vocab toy_seen) = Ok tt <->
   qualifying toy_seen + 1 < _max_vocab_size toy_seen) /\
  (fst (finalize_vocab toy_seen) = Ok tt ->
   _vocab_size (snd (finalize_vocab toy_seen)) = qualifying toy_seen + 1).
Proof.
  exact (finalize_vocab_succeeds_iff toy_seen toy_seen_keys_NoDup toy_seen_no_unk).
Defined.

Lemma sorted_nth_error (l : list (string * Z)) :
  StronglySorted by_count_desc l ->
  forall (n1 n2 : nat) (a b : string * Z),
    (n1 < n2)%nat -> nth_error l n1 = Some a -> nth_error l n2 = Some b ->
    snd b <= snd a.
Proof.
  induction 1 as [|x l Hs IH Hx]; intros n1 n2 a b Hlt H1 H2.
  - destruct n1; discriminate.
  - destruct n2 as [|n2]; [lia|]. simpl in H2.
    destruct n1 as [|n1]; simpl in H1.
    + injection H1 as <-. rewrite Forall_forall in Hx.
      apply Hx. eapply nth_error_In; eauto.
    + apply (IH n1 n2); auto. lia.
Qed.

Lemma kept_tokens_sorted (e : engine) :
  StronglySorted by_count_desc (kept_tokens e).
Proof.
  rewrite kept_tokens_prefix. apply sorted_firstn, sorted_desc_sorted.
Qed.

Lemma kept_tokens_count (e : engine) (w : string) (c : Z) :
  NoDup (OD.keys (_doc_counts e)) ->
  In (w, c) (kept_tokens e) -> OD.get (_doc_counts e) w = Some c.
Proof.
  intros Hnd Hin. apply od_get_in_NoDup; auto.
  rewrite kept_tokens_prefix in Hin.
  eapply Permutation_in; [apply sorted_desc_perm|].
  rewrite <- (firstn_skipn (List.length (kept_tokens e)) (sorted_desc (_doc_counts e))).
  apply in_or_app. now left.
Qed.

Lemma kept_nth (e : engine) (n : nat) (w : string) (c : Z) :
  NoDup (OD.keys (_doc_counts e)) ->
  nth_error (OD.keys (kept_tokens e)) n = Some w ->
  OD.get (_doc_counts e) w = Some c ->
  nth_error (kept_tokens e) n = Some (w, c).
Proof.
  intros Hnd Hn Hc. unfold OD.keys in Hn. rewrite nth_error_map in Hn.
  destruct (nth_error (kept_tokens e) n) as [[w' c']|] eqn:E; [|discriminate].
  simpl in Hn. injection Hn as ->.
  pose proof (kept_tokens_count e w c' Hnd (nth_error_In _ _ E)) as Hc'.
  congruence.
Qed.

(** After a successful [finalize_vocab] that did not keep the string of
    the unknown token, the ids follow the counts: of two observed words
    with an id, the one observed more often has the smaller id. *)
Theorem finalize_vocab_ids_follow_counts (e : engine)
    (w1 w2 : string) (i1 i2 c1 c2 : Z) :
  NoDup (OD.keys (_doc_counts e)) ->
  ~ In kUNK (OD.keys (kept_tokens e)) ->
  fst (finalize_vocab e) = Ok tt ->
  OD.get (_vocab (snd (finalize_vocab e))) w1 = Some i1 ->
  OD.get (_vocab (snd (finalize_vocab e))) w2 = Some i2 ->
  OD.get (_doc_counts e) w1 = Some c1 ->
  OD.get (_doc_counts e) w2 = Some c2 ->
  c2 < c1 ->
  i1 < i2.
Proof.
  intros Hnd Hunk Hok H1 H2 C1 C2 Hc.
  destruct (finalized_vocab_shape e Hnd Hunk Hok) as (Hv & _ & _ & Hks & Hmem).
  rewrite Hv in H1, H2.
  apply get_shape in H1; auto. apply get_shape in H2; auto.
  destruct H1 as [[Hi1 Hn1]|[-> ->]], H2 as [[Hi2 Hn2]|[-> ->]].
  - pose proof (kept_nth e _ w1 c1 Hnd Hn1 C1) as K1.
    pose proof (kept_nth e _ w2 c2 Hnd Hn2 C2) as K2.
    destruct (Z.lt_trichotomy i1 i2) as [Hlt|[Heq|Hgt]]; [exact Hlt | |].
    + subst i2. rewrite K1 in K2. injection K2 as _ E. lia.
    + pose proof (sorted_nth_error _ (kept_tokens_sorted e)
                    (Z.to_nat i2) (Z.to_nat i1) _ _ ltac:(lia) K2 K1) as Hle.
      simpl in Hle. lia.
  - lia.
  - exfalso.
    assert (Hin : In w2 (OD.keys (kept_tokens e))) by (eapply nth_error_In; eauto).
    apply Hmem in Hin. destruct Hin as (c & Hg & Hcut).
    assert (c = c2) by congruence. subst c.
    apply Hunk. apply Hmem. exists c1. split; [exact C1 | lia].
  - assert (c1 = c2) by congruence. lia.
Qed.

Lemma finalize_vocab_ids_follow_counts_witness :
  OD.get (_vocab (snd (finalize_vocab toy_ranked))) "b"%string = Some 0 /\
  OD.get (_vocab (snd (finalize_vocab toy_ranked))) "a"%string = Some 1 /\
  0 < 1.
Proof.
  split; [reflexivity|]. split; [reflexivity|].
  apply (finalize_vocab_ids_follow_counts toy_ranked "b"%string "a"%string 0 1 3 2).
  - vm_compute. repeat constructor; simpl; intuition discriminate.
  - vm_compute. intuition discriminate.
  - reflexivity.
  - reflexivity.
  - reflexivity.
  - reflexivity.
  - reflexivity.
  - lia.
Defined.

(** * The outcome of [train] *)

Lemma first_pass_open (qs : list string) :
  forall e, _vocab_final e = false ->
    exists c, for_each observe_question qs e = (Ok tt, set_doc_counts e c).
Proof.
  induction qs as [|q qs IH]; intros e Hf; simpl.
  - exists (_doc_counts e). now destruct e.
  - unfold and_then. rewrite observe_question_open by exact Hf.
    destruct (IH (set_doc_counts e
                    (fold_left (fun d w => fd_add d w 1) (normalized_tokens e q)
                       (_doc_counts e))) Hf) as [c Hc].
    exists c. rewrite Hc. reflexivity.
Qed.

Lemma second_pass_open (qs : list string) :
  forall e, _vocab_final e = true -> _docs_final e = false ->
    exists c,
      for_each (fun question e => scan_document e question) qs e =
      (Ok tt, set_total_docs (set_doc_counts e c)
                (_total_docs e + Z.of_nat (List.length qs))).
Proof.
  induction qs as [|q qs IH]; intros e Hv Hd.
  - exists (_doc_counts e). simpl. rewrite Z.add_0_r. now destruct e.
  - cbn [for_each]. unfold and_then. rewrite scan_document_open by assumption.
    match goal with |- context [for_each _ qs ?e1] =>
      destruct (IH e1 Hv Hd) as [c Hc]; rewrite Hc end.
    exists c. fields. f_equal. unfold set_total_docs, set_doc_counts. fields.
    f_equal. cbn [List.length]. lia.
Qed.

Lemma finalize_vocab_frame (e : engine) :
  let e' := snd (finalize_vocab e) in
  _docs_final e' = _docs_final e /\ _total_docs e' = _total_docs e /\
  _doc_freq e' = _doc_freq e /\ _doc_vectors e' = _doc_vectors e /\
  questions e' = questions e /\ answers e' = answers e.
Proof.
  unfold finalize_vocab.
  match goal with |- context [if ?b then _ else _] => destruct b end;
    simpl; repeat split.
Qed.

(** [train] on an instance with nothing final and no table.  When
    [finalize_vocab] fails after the first pass, [train] stops there
    with its error and in its state: the vocabulary is not final and no
    document was counted.  Otherwise both passes run and [train] stops
    in [finalize_docs] with [AttributeError]: by then both phases are
    marked final, every question was counted as a document, questions
    and answers are stored, and the matrix is what it was. *)
Theorem train_outcome (e : engine) (qs ans : list string) :
  _vocab_final e = false -> _docs_final e = false -> _doc_freq e = None ->
  let e1 := after_first_pass e qs ans in
  let r := train qs ans e in
  match fst (finalize_vocab e1) with
  | Raise x =>
      fst r = Raise x /\ snd r = snd (finalize_vocab e1) /\
      _vocab_final (snd r) = false /\ _total_docs (snd r) = _total_docs e
  | Ok _ =>
      fst r = Raise AttributeError /\
      _vocab_final (snd r) = true /\ _docs_final (snd r) = true /\
      _total_docs (snd r) = _total_docs e + Z.of_nat (List.length qs) /\
      _vocab (snd r) = _vocab (snd (finalize_vocab e1)) /\
      questions (snd r) = qs /\ answers (snd r) = ans /\
      _doc_vectors (snd r) = _doc_vectors e
  end.
Proof.
  intros Hv Hd Hf e1 r. subst e1 r. unfold after_first_pass, train.
  unfold and_then. cbn [fst snd].
  set (e0 := set_questions_answers e qs ans).
  destruct (first_pass_open qs e0 Hv) as [c Hc].
  rewrite Hc. cbn [fst snd].
  set (e1 := set_doc_counts e0 c).
  pose proof (finalize_vocab_outcome e1) as Ho.
  pose proof (finalize_vocab_frame e1) as (F1 & F2 & F3 & F4 & F5 & F6).
  pose proof (finalize_vocab_not_empty e1) as Hne.
  destruct (finalize_vocab e1) as [[u|x] e2]; cbn [fst snd] in *.
  - destruct Ho as [(_ & Hfin & _)|(Hr & _)]; [|discriminate].
    assert (Hd2 : _docs_final e2 = false) by (rewrite F1; exact Hd).
    destruct (second_pass_open qs e2 Hfin Hd2) as [c' Hc'].
    rewrite Hc'.
    set (e4 := set_total_docs _ _).
    assert (H4 : _doc_freq e4 = None) by (unfold e4; fields; rewrite F3; exact Hf).
    assert (N4 : _vocab e4 <> []) by (unfold e4; fields; exact Hne).
    pose proof (finalize_docs_raises e4 H4 N4) as R.
    destruct (finalize_docs e4) as [[u5|x5] e5] eqn:E5; cbn [fst] in R;
      [discriminate|].
    injection R as ->.
    unfold finalize_docs in E5. injection E5 as _ <-.
    cbn [fst snd]. unfold e4. fields.
    repeat split; auto. rewrite F2. reflexivity.
  - destruct Ho as [(Hr & _)|(_ & Hfin & _)]; [discriminate|].
    repeat split; auto. rewrite Hfin. exact Hv.
Qed.

Lemma train_outcome_witness :
  let r := train ["a a"; "a b"]%string ["A"; "B"]%string toy in
  fst r = Raise AttributeError /\
  _vocab_final (snd r) = true /\ _docs_final (snd r) = true /\
  _total_docs (snd r) = 2 /\
  questions (snd r) = ["a a"; "a b"]%string /\
  _doc_vectors (snd r) = None.
Proof.
  pose proof (train_outcome toy ["a a"; "a b"]%string ["A"; "B"]%string
                eq_refl eq_refl eq_refl) as H.
  cbv zeta in H.
  change (fst (finalize_vocab
            (after_first_pass toy ["a a"; "a b"]%string ["A"; "B"]%string)))
    with (@Ok unit tt) in H.
  cbv iota in H. destruct H as (H1 & H2 & H3 & H4 & _ & H6 & _ & H8).
  repeat split; assumption.
Defined.

(** * More of the code at the inputs where it departs from what is asked of it *)

(** C3 (code evaluated at the failing input).  On the instance [train]
    leaves, with both phases marked final, [embed] raises for a text
    that holds a word of the vocabulary: the table that [inv_docfreq]
    reads does not exist.  With the table supplied ([toy_trained]),
    [embed] on "a b" counts "a" alone: its term frequency is 1 and the
    unknown id, whose inverse document frequency is positive, keeps the
    weight 0.  [doc_tfidf] on the same instance and text maps "b" to the
    unknown id and gives both ids the term frequency 1/2. *)
Theorem embed_raises_and_drops_unknown :
  fst (train ["a a"; "a b"]%string ["A"; "B"]%string toy) = Raise AttributeError /\
  _vocab toy_after_train = [("a"%string, 0); (kUNK, 1)] /\
  _vocab_final toy_after_train = true /\
  _docs_final toy_after_train = true /\
  embed toy_after_train "a b"%string = Raise AttributeError /\
  exists x y : R,
    inv_docfreq toy_trained 0 = Ok x /\
    inv_docfreq toy_trained 1 = Ok y /\
    (0 < y)%R /\
    embed toy_trained "a b"%string = Ok [(1 / 1 * x)%R; 0%R] /\
    doc_tfidf toy_trained "a b"%string =
      Ok [((0, "a"%string), (1 / 2 * x)%R); ((1, "b"%string), (1 / 2 * y)%R)].
Proof.
  repeat (split; [reflexivity|]).
  exists (log10 (IZR 10 / IZR (1 + 4))), (log10 (IZR 10 / IZR (1 + 2))).
  split; [reflexivity|]. split; [reflexivity|]. split.
  - apply log10_pos. change (1 + 2) with 3. lra.
  - split; reflexivity.
Qed.

(** C4 (code evaluated at the failing input).  The string of the
    unknown token was seen three times and "a" twice; both are kept, the
    former first.  [finalize_vocab] succeeds, and the line that adds the
    unknown token overwrites the id 0 of the most frequent word with
    the number of entries: no word holds the id 0, the mapping has two
    entries, and the id of the unknown token is the size itself, which
    [vocab_lookup] refuses. *)
Theorem finalize_vocab_overwrites_unk_id :
  _doc_counts toy_unk_top = [(kUNK, 3); ("a"%string, 2)] /\
  kept_tokens toy_unk_top = [(kUNK, 3); ("a"%string, 2)] /\
  fst (finalize_vocab toy_unk_top) = Ok tt /\
  _vocab (snd (finalize_vocab toy_unk_top)) = [(kUNK, 2); ("a"%string, 1)] /\
  _vocab_size (snd (finalize_vocab toy_unk_top)) = 2 /\
  vocab_lookup (snd (finalize_vocab toy_unk_top)) kUNK = Raise AssertionError /\
  vocab_lookup (snd (finalize_vocab toy_unk_top)) "a"%string = Ok 1.
Proof. repeat split; reflexivity. Qed.

(** C9 (code evaluated at the failing input).  The instance [train]
    leaves answers a query of unknown words, has no matrix, and is
    saved; [load] into a new instance of the same file name raises
    [AttributeError] on the shape of the matrix it read, before it
    marks the documents final.  With a table and a matrix supplied
    ([one_doc]) the query "a" is answered before saving, [load]
    succeeds and restores the vocabulary and the matrix, and the same
    query raises on the loaded instance: the table is not among the
    attributes that [save] writes. *)
Theorem save_load_fails_after_train :
  let fs := save sample_save_questions_and_answers toy_after_train [] in
  let r := load sample_load_questions_and_answers fs toy in
  let fs1 := save sample_save_questions_and_answers one_doc [] in
  let r1 := load sample_load_questions_and_answers fs1
              (init "one"%string 10 words lower 1) in
  (exists g, call toy_after_train "zzz"%string 1 = Ok g /\
             g_question g = "a a"%string /\ g_guess g = "A"%string) /\
  _doc_vectors toy_after_train = None /\
  fst r = Raise AttributeError /\
  _docs_final (snd r) = false /\
  (exists g, call one_doc "a"%string 1 = Ok g /\ g_guess g = "A"%string) /\
  fst r1 = Ok tt /\
  _vocab (snd r1) = _vocab one_doc /\
  _doc_vectors (snd r1) = _doc_vectors one_doc /\
  call (snd r1) "a"%string 1 = Raise AttributeError.
Proof.
  cbv zeta.
  split; [eexists; split; [reflexivity | split; reflexivity]|].
  split; [reflexivity|]. split; [reflexivity|]. split; [reflexivity|].
  split; [eexists; split; reflexivity|].
  repeat split; reflexivity.
Qed.
